(** * OSgym: the VM pool allocator and the lease reaper

    A shallow embedding of [bk/main_DesktopEnv_Error.py]: the persisted pool
    state kept by [VMStateManager] (the lists [available.json] and
    [active.json], the dictionary [vm_map.json]), the helpers that run under
    [vm_lock] ([_get_available_vm], [_release_vm], [_get_vm_env],
    [_set_timeout], one pass of the loop of [_check_timeout]) and the four
    request handlers.  Each helper holds [vm_lock] for its whole body, so a
    helper is one atomic transition of the store; an exception leaves the
    store as it was written up to the raise. *)

From stdpp Require Import gmap strings list fin_maps.

Open Scope Z_scope.

(** ** Values and the persisted store *)

(** The JSON values the lease dictionaries hold: integers and booleans. *)
Inductive jval : Type :=
| JInt (z : Z)
| JBool (b : bool).

#[global] Instance jval_eq_dec : EqDecision jval.
Proof. solve_decision. Defined.

(** Python arithmetic and comparison read a boolean as 0 or 1. *)
Definition as_int (v : jval) : Z :=
  match v with
  | JInt z => z
  | JBool b => if b then 1 else 0
  end.

(** Python truth value of a stored value. *)
Definition truthy (v : jval) : bool :=
  match v with
  | JInt z => negb (z =? 0)
  | JBool b => b
  end.

(** The three collections of [vm_cache/]. *)
Record store : Type := Store {
  available_vms : list Z;
  active_vms : list Z;
  vm_map : gmap Z (gmap string jval)
}.

(** ** Exceptions and the state-and-exception monad *)

Inductive exn : Type :=
| NoAvailableVMs                (* Exception("No available VMs") *)
| VMNotAvailable (vm_id : Z)    (* Exception(f"VM ID {vm_id} not available") *)
| ValueError                    (* list.remove(x): x not in list *)
| RuntimeFailure.               (* raised inside the DesktopEnv runtime *)

#[global] Instance exn_eq_dec : EqDecision exn.
Proof. solve_decision. Defined.

Inductive outcome (A : Type) : Type :=
| Return (a : A) (s : store)
| Raise (e : exn) (s : store).
Arguments Return {A} a s.
Arguments Raise {A} e s.

Definition M (A : Type) : Type := store → outcome A.

Definition ret {A} (a : A) : M A := λ s, Return a s.
Definition raise {A} (e : exn) : M A := λ s, Raise e s.
Definition bind {A B} (m : M A) (k : A → M B) : M B :=
  λ s, match m s with
       | Return a s' => k a s'
       | Raise e s' => Raise e s'
       end.

#[global] Instance M_ret : MRet M := @ret.
#[global] Instance M_bind : MBind M := λ A B k m, bind m k.

(** The store an outcome leaves behind, whether it returned or raised. *)
Definition store_of {A} (o : outcome A) : store :=
  match o with
  | Return _ s => s
  | Raise _ s => s
  end.

(** [for x in xs: body(x)] *)
Fixpoint for_each (xs : list Z) (body : Z → M unit) : M unit :=
  match xs with
  | [] => ret tt
  | x :: xs' => bind (body x) (λ _, for_each xs' body)
  end.

(** ** Python list operations *)

(** [l.remove(x)]: drops the first occurrence of [x]; [None] stands for the
    [ValueError] raised when [x] does not occur. *)
Fixpoint list_remove (x : Z) (l : list Z) : option (list Z) :=
  match l with
  | [] => None
  | y :: l' => if decide (x = y) then Some l' else cons y <$> list_remove x l'
  end.

(** [list(range(50, -1, -1))] *)
Definition range_50_down : list Z := reverse (seqZ 0 51).

(** ** VMStateManager *)

Module VMStateManager.

(** [_init_state], on a fresh [vm_cache] directory. *)
Definition _init_state : store :=
  {| available_vms := range_50_down; active_vms := []; vm_map := ∅ |}.

Definition allocate_vm (vm_id : Z) : M unit := λ s,
  let available := available_vms s in
  let active := active_vms s in
  if decide (vm_id ∈ available) then
    match list_remove vm_id available with
    | Some available' =>
        Return tt {| available_vms := available';
                     active_vms := active ++ [vm_id];
                     vm_map := vm_map s |}
    | None => Raise ValueError s
    end
  else Return tt s.

Definition release_vm (vm_id : Z) : M unit := λ s,
  let available := available_vms s in
  let active := active_vms s in
  if decide (vm_id ∈ active) then
    match list_remove vm_id active with
    | Some active' =>
        Return tt {| available_vms := available ++ [vm_id];
                     active_vms := active';
                     vm_map := vm_map s |}
    | None => Raise ValueError s
    end
  else Return tt s.

Definition update_vm_map (vm_id : Z) (data : gmap string jval) : M unit := λ s,
  Return tt {| available_vms := available_vms s;
               active_vms := active_vms s;
               vm_map := <[vm_id := data]> (vm_map s) |}.

Definition remove_vm_map (vm_id : Z) : M unit := λ s,
  match vm_map s !! vm_id with
  | Some _ =>
      Return tt {| available_vms := available_vms s;
                   active_vms := active_vms s;
                   vm_map := delete vm_id (vm_map s) |}
  | None => Return tt s
  end.

End VMStateManager.

(** ** The external VM runtime *)

(** What a [DesktopEnv] handle answers; [None] is a raised exception.
    Screenshots, instructions and task configurations are opaque texts and
    the reward an opaque number: the pool never inspects them.  The
    constructor [DesktopEnv(provider_name="docker", ...)] is external too:
    the helpers take its result [docker], [None] when it raises. *)
Record DesktopEnv : Type := {
  env_render : option string;
  env_reset : string → option (string * string);
  env_step : string → option (string * Z * bool);
  env_evaluate : option Z
}.

Definition from_runtime {A} (r : option A) : M A :=
  match r with
  | Some a => ret a
  | None => raise RuntimeFailure
  end.

(** [vm_id: Union[int, str]] of a shutdown request. *)
Inductive vm_id_arg : Type :=
| IdInt (n : Z)
| IdStr (name : string).

(** ** The helpers that run under [vm_lock] *)

Definition _get_available_vm : M Z := λ s,
  let available := available_vms s in
  match last available with
  | None => Raise NoAvailableVMs s
  | Some vm_id => bind (VMStateManager.allocate_vm vm_id) (λ _, ret vm_id) s
  end.

Definition _release_vm (vm_id : vm_id_arg) : M unit :=
  match vm_id with
  | IdInt n =>
      if bool_decide (n ≤ 50) then VMStateManager.release_vm n else ret tt
  | IdStr name =>
      if bool_decide (name = "all"%string) then
        λ s, for_each (active_vms s) VMStateManager.release_vm s
      else ret tt
  end.

Definition _get_vm_env (docker : option DesktopEnv) (vm_id : Z)
  : M DesktopEnv := λ s,
  if decide (vm_id ∈ active_vms s) then from_runtime docker s
  else Raise (VMNotAvailable vm_id) s.

Definition _set_timeout (vm_id : Z) (timeout : Z) : M unit :=
  VMStateManager.update_vm_map vm_id
    (<["timeout"%string := JInt timeout]>
       (<["lifetime"%string := JInt timeout]> ∅)).

(** ** One pass of the reaper loop *)

(** [entry.get("visited", False)], [entry.get("lifetime", 0)],
    [entry.get("timeout", 0)] *)
Definition get_visited (entry : gmap string jval) : jval :=
  default (JBool false) (entry !! "visited"%string).
Definition get_lifetime (entry : gmap string jval) : jval :=
  default (JInt 0) (entry !! "lifetime"%string).
Definition get_timeout (entry : gmap string jval) : jval :=
  default (JInt 0) (entry !! "timeout"%string).

(** The update of one lease dictionary (lines 210-214). *)
Definition sweep_entry (entry : gmap string jval) : gmap string jval :=
  if negb (truthy (get_visited entry)) then
    <["lifetime"%string := JInt (Z.max 0 (as_int (get_lifetime entry) - 60))]> entry
  else
    <["lifetime"%string := get_timeout entry]>
      (<["visited"%string := JBool false]> entry).

(** The test of line 216 on the dictionary read at line 209: the lease of
    [vm_id] is over at this pass. *)
Definition expires (current_map : gmap Z (gmap string jval)) (vm_id : Z) : Prop :=
  as_int (get_lifetime (sweep_entry (default ∅ (current_map !! vm_id)))) ≤ 0.

#[global] Instance expires_dec current_map vm_id :
  Decision (expires current_map vm_id).
Proof. unfold expires. apply _. Defined.

(** The local variables [active], [available] and [current_map]. *)
Record locals : Type := Locals {
  l_active : list Z;
  l_available : list Z;
  l_map : gmap Z (gmap string jval)
}.

(** The body of [for vm_id in list(active)].  [entry] aliases the dictionary
    stored in [current_map] when the key is present, so the assignments to
    [entry] show in [current_map]; otherwise [entry] is a fresh [{}] that
    is dropped.  [None] is the [ValueError] of [active.remove]. *)
Definition sweep_step (loc : locals) (vm_id : Z) : option locals :=
  let entry := default ∅ (l_map loc !! vm_id) in
  let entry' := sweep_entry entry in
  let current_map :=
    match l_map loc !! vm_id with
    | Some _ => <[vm_id := entry']> (l_map loc)
    | None => l_map loc
    end in
  if bool_decide (as_int (get_lifetime entry') ≤ 0) then
    active' ← list_remove vm_id (l_active loc);
    Some {| l_active := active';
            l_available := l_available loc ++ [vm_id];
            l_map := delete vm_id current_map |}
  else
    Some {| l_active := l_active loc;
            l_available := l_available loc;
            l_map := current_map |}.

Fixpoint sweep_loop (snapshot : list Z) (loc : locals) : option locals :=
  match snapshot with
  | [] => Some loc
  | vm_id :: rest => loc' ← sweep_step loc vm_id; sweep_loop rest loc'
  end.

(** The body of [while True] in [_check_timeout], without the sleep: the
    three reads, the loop over the snapshot of [active], the three writes. *)
Definition _check_timeout_pass : M unit := λ s,
  let loc := {| l_active := active_vms s;
                l_available := available_vms s;
                l_map := vm_map s |} in
  match sweep_loop (active_vms s) loc with
  | Some loc' =>
      Return tt {| available_vms := l_available loc';
                   active_vms := l_active loc';
                   vm_map := l_map loc' |}
  | None => Raise ValueError s
  end.

(** [_check_timeout] itself never returns; [n] passes of it. *)
Fixpoint _check_timeout (n : nat) : M unit :=
  match n with
  | O => ret tt
  | S n' => bind _check_timeout_pass (λ _, _check_timeout n')
  end.

(** ** The request handlers *)

Inductive response : Type :=
| ScreenshotOk (screenshot : string) (vm_id : Z)
| ResetOk (screenshot problem : string) (vm_id : Z)
| StepOk (screenshot : string) (is_finish : bool) (reward : Z)
| ShutdownOk (vm_id : vm_id_arg)
| Http400 (message : exn).

(** [try: ... except Exception as e: return JSONResponse(status_code=400)] *)
Definition try_except (body : M response) : store → response * store := λ s,
  match body s with
  | Return r s' => (r, s')
  | Raise e s' => (Http400 e, s')
  end.

Definition screenshot (docker : option DesktopEnv) (vm_id : Z)
  : store → response * store :=
  try_except (
    vm_env ← _get_vm_env docker vm_id;
    obs ← from_runtime (env_render vm_env);
    mret (ScreenshotOk obs vm_id)).

Definition reset (docker : option DesktopEnv) (task_config : string)
    (timeout : Z) : store → response * store :=
  try_except (
    vm_id ← _get_available_vm;
    vm_env ← _get_vm_env docker vm_id;
    obs ← from_runtime (env_reset vm_env task_config);
    _set_timeout vm_id timeout;;
    mret (ResetOk obs.1 obs.2 vm_id)).

Definition step (docker : option DesktopEnv) (action : string) (vm_id : Z)
  : store → response * store :=
  try_except (
    vm_env ← _get_vm_env docker vm_id;
    '(obs, reward, done) ← from_runtime (env_step vm_env action);
    if done : bool then
      reward' ← from_runtime (env_evaluate vm_env);
      _release_vm (IdInt vm_id);;
      mret (StepOk obs done reward')
    else mret (StepOk obs done reward)).

Definition shutdown (vm_id : vm_id_arg) : store → response * store :=
  try_except (
    _release_vm vm_id;;
    mret (ShutdownOk vm_id)).

(** ** Reachable stores *)

Inductive op : Type :=
| Allocate
| Release (vm_id : vm_id_arg)
| SetLease (vm_id : Z) (timeout : Z)
| Sweep.

Definition run_op (o : op) (s : store) : store :=
  match o with
  | Allocate => store_of (_get_available_vm s)
  | Release vm_id => store_of (_release_vm vm_id s)
  | SetLease vm_id timeout => store_of (_set_timeout vm_id timeout s)
  | Sweep => store_of (_check_timeout_pass s)
  end.

Inductive reachable : store → Prop :=
| reachable_init : reachable VMStateManager._init_state
| reachable_step o s : reachable s → reachable (run_op o s).

(** The pool invariant: the free list followed by the leased list is a
    rearrangement of the ID range, every ID exactly once. *)
Definition pool_inv (s : store) : Prop :=
  available_vms s ++ active_vms s ≡ₚ range_50_down.

(** ** The files of [vm_cache/] *)

(** The three files behind the store; [None] is a path that does not exist
    (reading it raises). *)
Record vm_cache : Type := {
  available_json : option (list Z);
  active_json : option (list Z);
  vm_map_json : option (gmap Z (gmap string jval))
}.

(** [_init_file]: the default is written only when the path does not exist. *)
Definition _init_file {A} (file : option A) (default : A) : option A :=
  match file with
  | Some content => Some content
  | None => Some default
  end.

(** [_init_state] on a [vm_cache] directory in any condition. *)
Definition _init_state_on (c : vm_cache) : vm_cache :=
  {| available_json := _init_file (available_json c) range_50_down;
     active_json := _init_file (active_json c) [];
     vm_map_json := _init_file (vm_map_json c) ∅ |}.

(** The properties [available_vms], [active_vms] and [vm_map] read together. *)
Definition read_store (c : vm_cache) : option store :=
  available ← available_json c;
  active ← active_json c;
  m ← vm_map_json c;
  Some {| available_vms := available; active_vms := active; vm_map := m |}.

(** * Properties *)

(** ** [list.remove] *)

Section list_remove.
Implicit Types (x y : Z) (l k : list Z).

Lemma list_remove_is_Some x l : x ∈ l → is_Some (list_remove x l).
Proof.
  induction l as [|y l IH]; intros Hx.
  - by apply elem_of_nil in Hx.
  - simpl. destruct (decide (x = y)) as [->|Hne]; [by eexists|].
    apply elem_of_cons in Hx as [?|Hx]; [done|].
    destruct (IH Hx) as [k ->]. by eexists.
Qed.

Lemma list_remove_Some_perm x l k : list_remove x l = Some k → l ≡ₚ x :: k.
Proof.
  revert k. induction l as [|y l IH]; intros k; simpl; [done|].
  destruct (decide (x = y)) as [->|Hne].
  - by intros [= ->].
  - destruct (list_remove x l) as [k'|] eqn:E; simpl; [|done].
    intros [= <-]. rewrite (IH k' eq_refl). apply perm_swap.
Qed.

Lemma list_remove_head x l : list_remove x (x :: l) = Some l.
Proof. simpl. by rewrite decide_True. Qed.

Lemma list_remove_NoDup_filter x l :
  NoDup l → x ∈ l → list_remove x l = Some (filter (λ y, y ≠ x) l).
Proof.
  induction l as [|y l IH]; intros Hnd Hx.
  - by apply elem_of_nil in Hx.
  - apply NoDup_cons in Hnd as [Hy Hnd]. simpl.
    destruct (decide (x = y)) as [->|Hne].
    + rewrite filter_cons_False by naive_solver. f_equal.
      clear IH Hx Hnd. induction l as [|z l IH]; [done|].
      apply not_elem_of_cons in Hy as [Hyz Hy].
      rewrite filter_cons_True by done. f_equal. by apply IH.
    + apply elem_of_cons in Hx as [?|Hx]; [done|].
      rewrite (IH Hnd Hx). simpl. by rewrite filter_cons_True by done.
Qed.

Lemma list_remove_snoc x l : x ∉ l → list_remove x (l ++ [x]) = Some l.
Proof.
  induction l as [|y l IH]; intros Hx; simpl.
  - by rewrite decide_True.
  - apply not_elem_of_cons in Hx as [Hne Hx].
    rewrite decide_False by done. by rewrite (IH Hx).
Qed.

End list_remove.

(** ** The pool invariant and what it says *)

Lemma NoDup_range_50_down : NoDup range_50_down.
Proof. unfold range_50_down. rewrite reverse_Permutation. apply NoDup_seqZ. Qed.

Lemma elem_of_range_50_down (x : Z) : x ∈ range_50_down ↔ 0 ≤ x ≤ 50.
Proof. unfold range_50_down. rewrite elem_of_reverse, elem_of_seqZ. lia. Qed.

Lemma pool_inv_NoDup s : pool_inv s → NoDup (available_vms s ++ active_vms s).
Proof. intros H. unfold pool_inv in H. rewrite H. apply NoDup_range_50_down. Qed.

Lemma pool_inv_NoDup_available s : pool_inv s → NoDup (available_vms s).
Proof. intros H. by apply pool_inv_NoDup, NoDup_app in H as (? & _ & _). Qed.

Lemma pool_inv_NoDup_active s : pool_inv s → NoDup (active_vms s).
Proof. intros H. by apply pool_inv_NoDup, NoDup_app in H as (_ & _ & ?). Qed.

Lemma pool_inv_disjoint s x :
  pool_inv s → x ∈ available_vms s → x ∉ active_vms s.
Proof. intros H. apply pool_inv_NoDup, NoDup_app in H as (_ & H & _). apply H. Qed.

Lemma pool_inv_range s x :
  pool_inv s → x ∈ available_vms s ∨ x ∈ active_vms s ↔ 0 ≤ x ≤ 50.
Proof.
  intros H. unfold pool_inv in H.
  by rewrite <-elem_of_app, H, elem_of_range_50_down.
Qed.

Lemma pool_inv_init : pool_inv VMStateManager._init_state.
Proof. unfold pool_inv. cbn [VMStateManager._init_state available_vms active_vms]. by rewrite app_nil_r. Qed.

(** ** The manager's two moves *)

Lemma release_vm_absent vm_id s :
  vm_id ∉ active_vms s → VMStateManager.release_vm vm_id s = Return tt s.
Proof. intros H. unfold VMStateManager.release_vm. by rewrite decide_False. Qed.

Lemma release_vm_present vm_id s :
  vm_id ∈ active_vms s →
  ∃ active', list_remove vm_id (active_vms s) = Some active' ∧
    VMStateManager.release_vm vm_id s =
      Return tt {| available_vms := available_vms s ++ [vm_id];
                   active_vms := active';
                   vm_map := vm_map s |}.
Proof.
  intros H. destruct (list_remove_is_Some _ _ H) as [active' E].
  exists active'. split; [done|].
  unfold VMStateManager.release_vm. by rewrite decide_True, E.
Qed.

Lemma allocate_vm_present vm_id s :
  vm_id ∈ available_vms s →
  ∃ available', list_remove vm_id (available_vms s) = Some available' ∧
    VMStateManager.allocate_vm vm_id s =
      Return tt {| available_vms := available';
                   active_vms := active_vms s ++ [vm_id];
                   vm_map := vm_map s |}.
Proof.
  intros H. destruct (list_remove_is_Some _ _ H) as [available' E].
  exists available'. split; [done|].
  unfold VMStateManager.allocate_vm. by rewrite decide_True, E.
Qed.

(** [release_vm] returns, keeps the lease dictionaries and the invariant. *)
Lemma release_vm_returns vm_id s :
  ∃ s', VMStateManager.release_vm vm_id s = Return tt s' ∧
    vm_map s' = vm_map s ∧ (pool_inv s → pool_inv s').
Proof.
  destruct (decide (vm_id ∈ active_vms s)) as [Hin|Hout].
  - destruct (release_vm_present _ _ Hin) as (active' & E & ->).
    eexists. split; [done|]. split; [done|].
    unfold pool_inv. cbn [available_vms active_vms]. intros <-.
    by rewrite (list_remove_Some_perm _ _ _ E), <-(assoc_L (++)).
  - rewrite release_vm_absent by done. by eexists.
Qed.

Lemma for_each_returns (P : store → Prop) body xs s :
  (∀ x s0, P s0 → ∃ s1, body x s0 = Return tt s1 ∧ P s1) →
  P s → ∃ s', for_each xs body s = Return tt s' ∧ P s'.
Proof.
  intros Hbody. revert s. induction xs as [|x xs IH]; intros s Hs.
  - by exists s.
  - simpl. unfold bind. destruct (Hbody x s Hs) as (s1 & -> & Hs1). by apply IH.
Qed.

(** ** The helpers under the lock *)

Lemma get_available_vm_empty s :
  available_vms s = [] → _get_available_vm s = Raise NoAvailableVMs s.
Proof. intros H. unfold _get_available_vm. by rewrite H. Qed.

Lemma get_available_vm_last s vm_id :
  last (available_vms s) = Some vm_id →
  ∃ available', list_remove vm_id (available_vms s) = Some available' ∧
    _get_available_vm s =
      Return vm_id {| available_vms := available';
                      active_vms := active_vms s ++ [vm_id];
                      vm_map := vm_map s |}.
Proof.
  intros Hlast. pose proof (last_Some_elem_of _ _ Hlast) as Hin.
  destruct (allocate_vm_present _ _ Hin) as (available' & E & Halloc).
  exists available'. split; [done|].
  unfold _get_available_vm, bind. by rewrite Hlast, Halloc.
Qed.

Lemma release_vm_arg_returns vm_id s :
  ∃ s', _release_vm vm_id s = Return tt s' ∧
    vm_map s' = vm_map s ∧ (pool_inv s → pool_inv s').
Proof.
  destruct vm_id as [n|name]; simpl.
  - case_bool_decide; [apply release_vm_returns|by exists s].
  - case_bool_decide; [|by exists s].
    destruct (for_each_returns
      (λ s0, vm_map s0 = vm_map s ∧ (pool_inv s → pool_inv s0))
      VMStateManager.release_vm (active_vms s) s) as (s' & E & Hm & Hinv); [|done|].
    + intros x s0 [Hm Hinv].
      destruct (release_vm_returns x s0) as (s1 & E & Hm1 & Hinv1).
      exists s1. split; [done|]. split; [congruence|auto].
    + by exists s'.
Qed.

(** ** One pass of the reaper *)

Lemma lifetime_sweep_entry entry :
  as_int (get_lifetime (sweep_entry entry)) =
    if truthy (get_visited entry) then as_int (get_timeout entry)
    else Z.max 0 (as_int (get_lifetime entry) - 60).
Proof.
  unfold sweep_entry. destruct (truthy (get_visited entry)); simpl;
    unfold get_lifetime at 1; by rewrite lookup_insert_eq.
Qed.

Lemma visited_sweep_entry entry : truthy (get_visited (sweep_entry entry)) = false.
Proof.
  unfold sweep_entry. destruct (truthy (get_visited entry)) eqn:E; simpl.
  - unfold get_visited. by rewrite lookup_insert_ne, lookup_insert_eq.
  - unfold get_visited in *. by rewrite lookup_insert_ne.
Qed.

Lemma timeout_sweep_entry entry :
  sweep_entry entry !! "timeout"%string = entry !! "timeout"%string.
Proof.
  unfold sweep_entry. destruct (truthy (get_visited entry)); simpl;
    by rewrite !lookup_insert_ne.
Qed.

Lemma expires_absent current_map vm_id :
  current_map !! vm_id = None → expires current_map vm_id.
Proof. intros H. unfold expires. by rewrite H. Qed.

Lemma expires_agree m1 m2 vm_id :
  m1 !! vm_id = m2 !! vm_id → expires m1 vm_id ↔ expires m2 vm_id.
Proof. intros H. unfold expires. by rewrite H. Qed.

Lemma sweep_step_current_map (m : gmap Z (gmap string jval)) vm_id :
  match m !! vm_id with
  | Some _ => <[vm_id := sweep_entry (default ∅ (m !! vm_id))]> m
  | None => m
  end = alter sweep_entry vm_id m.
Proof.
  apply map_eq. intros j. rewrite lookup_alter.
  destruct (m !! vm_id) as [e|] eqn:E; simpl.
  - rewrite lookup_insert. by case_decide.
  - case_decide; [|done]. by subst.
Qed.

Lemma sweep_step_expired active active' available m vm_id :
  expires m vm_id → list_remove vm_id active = Some active' →
  sweep_step (Locals active available m) vm_id =
    Some (Locals active' (available ++ [vm_id]) (delete vm_id m)).
Proof.
  intros Hexp Hrem. unfold sweep_step. cbn [l_active l_available l_map].
  rewrite sweep_step_current_map, bool_decide_eq_true_2 by done.
  rewrite Hrem. simpl. do 2 f_equal.
  apply map_eq. intros j. rewrite !lookup_delete, lookup_alter.
  by case_decide.
Qed.

Lemma sweep_step_kept active available m vm_id :
  ¬ expires m vm_id →
  sweep_step (Locals active available m) vm_id =
    Some (Locals active available (alter sweep_entry vm_id m)).
Proof.
  intros Hexp. unfold sweep_step. cbn [l_active l_available l_map].
  by rewrite sweep_step_current_map, bool_decide_eq_false_2 by done.
Qed.

Lemma filter_agree (P Q : Z → Prop) `{!∀ x, Decision (P x), !∀ x, Decision (Q x)}
    (l : list Z) :
  (∀ x, x ∈ l → P x ↔ Q x) → filter P l = filter Q l.
Proof.
  induction l as [|y l IH]; intros Hiff; [done|].
  rewrite !filter_cons.
  rewrite IH by (intros x Hx; apply Hiff; by right).
  assert (P y ↔ Q y) as Hy by (apply Hiff; by left).
  destruct (decide (P y)), (decide (Q y)); tauto || done.
Qed.

Lemma filter_all (P : Z → Prop) `{!∀ x, Decision (P x)} (l : list Z) :
  (∀ x, P x) → filter P l = l.
Proof.
  intros HP. induction l as [|y l IH]; [done|].
  rewrite filter_cons_True by done. by rewrite IH.
Qed.

(** The loop in closed form, when the snapshot and [active] have no
    duplicates: the expired IDs leave [active] and are appended to
    [available] in the order of the snapshot, and each swept dictionary is
    either deleted or updated. *)
Lemma sweep_loop_closed snapshot : ∀ active available m,
  NoDup active → NoDup snapshot → (∀ x, x ∈ snapshot → x ∈ active) →
  ∃ m', sweep_loop snapshot (Locals active available m) =
      Some (Locals (filter (λ x, ¬ (x ∈ snapshot ∧ expires m x)) active)
                   (available ++ filter (expires m) snapshot) m') ∧
    ∀ x, m' !! x =
      if decide (x ∈ snapshot)
      then if decide (expires m x) then None else sweep_entry <$> m !! x
      else m !! x.
Proof.
  induction snapshot as [|vm_id rest IH]; intros active available m Hact Hnd Hsub.
  - exists m. split.
    + simpl. rewrite app_nil_r, filter_all; [done|].
      intros x [Hx _]. by apply elem_of_nil in Hx.
    + intros x. rewrite decide_False; [done|]. rewrite elem_of_nil. tauto.
  - apply NoDup_cons in Hnd as [Hfresh Hnd].
    assert (vm_id ∈ active) as Hin by (apply Hsub; by left).
    destruct (decide (expires m vm_id)) as [Hexp|Hexp].
    + pose proof (list_remove_NoDup_filter _ _ Hact Hin) as Hrem.
      destruct (IH (filter (λ y, y ≠ vm_id) active) (available ++ [vm_id])
                  (delete vm_id m)) as (m' & Hloop & Hm').
      { by apply NoDup_filter. }
      { done. }
      { intros x Hx. apply list_elem_of_filter. split.
        - intros ->. done.
        - apply Hsub. by right. }
      exists m'. split.
      * cbn [sweep_loop]. rewrite (sweep_step_expired _ _ _ _ _ Hexp Hrem). simpl.
        rewrite Hloop. do 2 f_equal.
        -- rewrite list_filter_filter. apply list_filter_iff. intros x.
           rewrite elem_of_cons. destruct (decide (x = vm_id)) as [->|Hne].
           ++ intuition.
           ++ rewrite (expires_agree (delete vm_id m) m x)
                by (by rewrite lookup_delete_ne). intuition.
        -- rewrite filter_cons_True by done. rewrite <-(assoc_L (++)). simpl.
           do 2 f_equal. apply filter_agree. intros x Hx.
           apply expires_agree. rewrite lookup_delete_ne; [done|].
           intros ->. done.
      * intros x. rewrite Hm'. destruct (decide (x = vm_id)) as [->|Hne].
        -- rewrite decide_False by done. rewrite lookup_delete_eq.
           rewrite decide_True by (by left). by rewrite decide_True.
        -- rewrite lookup_delete_ne by done.
           destruct (decide (x ∈ rest)) as [Hx|Hx].
           ++ rewrite (decide_True (P := x ∈ vm_id :: rest)) by (by right).
              destruct (decide (expires (delete vm_id m) x)) as [H1|H1],
                       (decide (expires m x)) as [H2|H2]; try done; exfalso;
                apply (expires_agree (delete vm_id m) m x) in H1 || 
                apply (expires_agree (delete vm_id m) m x) in H2;
                try done; by rewrite lookup_delete_ne.
           ++ rewrite decide_False; [done|]. rewrite elem_of_cons. intuition.
    + destruct (IH active available (alter sweep_entry vm_id m))
        as (m' & Hloop & Hm'); [done|done|..].
      { intros x Hx. apply Hsub. by right. }
      exists m'. split.
      * cbn [sweep_loop]. rewrite (sweep_step_kept _ _ _ _ Hexp). simpl.
        rewrite Hloop. do 2 f_equal.
        -- apply list_filter_iff. intros x.
           rewrite elem_of_cons. destruct (decide (x = vm_id)) as [->|Hne].
           ++ intuition.
           ++ rewrite (expires_agree (alter sweep_entry vm_id m) m x)
                by (by rewrite lookup_alter_ne). intuition.
        -- rewrite filter_cons_False by done. f_equal.
           apply filter_agree. intros x Hx.
           apply expires_agree. rewrite lookup_alter_ne; [done|].
           intros ->. done.
      * intros x. rewrite Hm'. destruct (decide (x = vm_id)) as [->|Hne].
        -- rewrite decide_False by done. rewrite lookup_alter_eq.
           rewrite decide_True by (by left). by rewrite decide_False.
        -- rewrite lookup_alter_ne by done.
           destruct (decide (x ∈ rest)) as [Hx|Hx].
           ++ rewrite (decide_True (P := x ∈ vm_id :: rest)) by (by right).
              destruct (decide (expires (alter sweep_entry vm_id m) x)) as [H1|H1],
                       (decide (expires m x)) as [H2|H2]; try done; exfalso;
                apply (expires_agree (alter sweep_entry vm_id m) m x) in H1 || 
                apply (expires_agree (alter sweep_entry vm_id m) m x) in H2;
                try done; by rewrite lookup_alter_ne.
           ++ rewrite decide_False; [done|]. rewrite elem_of_cons. intuition.
Qed.

Lemma check_timeout_pass_closed s :
  NoDup (active_vms s) →
  ∃ s', _check_timeout_pass s = Return tt s' ∧
    active_vms s' = filter (λ x, ¬ expires (vm_map s) x) (active_vms s) ∧
    available_vms s' =
      available_vms s ++ filter (expires (vm_map s)) (active_vms s) ∧
    ∀ x, vm_map s' !! x =
      if decide (x ∈ active_vms s)
      then if decide (expires (vm_map s) x) then None
           else sweep_entry <$> vm_map s !! x
      else vm_map s !! x.
Proof.
  intros Hnd.
  destruct (sweep_loop_closed (active_vms s) (active_vms s) (available_vms s)
              (vm_map s) Hnd Hnd (λ _ H, H)) as (m' & Hloop & Hm').
  eexists. unfold _check_timeout_pass. rewrite Hloop.
  split; [done|]. cbn [available_vms active_vms vm_map l_active l_available l_map].
  split; [|done].
  apply filter_agree. intros x Hx. tauto.
Qed.

Lemma check_timeout_pass_inv s :
  pool_inv s → ∃ s', _check_timeout_pass s = Return tt s' ∧ pool_inv s'.
Proof.
  intros Hinv.
  destruct (check_timeout_pass_closed s (pool_inv_NoDup_active s Hinv))
    as (s' & E & Hact & Hav & _).
  exists s'. split; [done|]. unfold pool_inv in *.
  by rewrite Hact, Hav, <-(assoc_L (++)), filter_app_complement.
Qed.

Lemma get_available_vm_inv s : pool_inv s → pool_inv (store_of (_get_available_vm s)).
Proof.
  intros Hinv. destruct (last (available_vms s)) as [vm_id|] eqn:Hlast.
  - destruct (get_available_vm_last s vm_id Hlast) as (available' & Hrem & ->).
    unfold pool_inv in *. cbn [store_of available_vms active_vms].
    rewrite <-Hinv, (list_remove_Some_perm _ _ _ Hrem).
    rewrite (assoc_L (++)), <-Permutation_cons_append. done.
  - apply last_None in Hlast. by rewrite get_available_vm_empty.
Qed.

Lemma run_op_inv o s : pool_inv s → pool_inv (run_op o s).
Proof.
  intros Hinv. destruct o as [|vm_id|vm_id timeout|]; cbn [run_op].
  - by apply get_available_vm_inv.
  - destruct (release_vm_arg_returns vm_id s) as (s' & -> & _ & H). by apply H.
  - done.
  - by destruct (check_timeout_pass_inv s Hinv) as (s' & -> & H).
Qed.

Lemma reachable_pool_inv s : reachable s → pool_inv s.
Proof.
  induction 1 as [|o s _ IH]; [apply pool_inv_init|by apply run_op_inv].
Qed.

(** ** The specification's properties *)

(** C1.  Every store reachable from the initial one by allocations, releases
    (of one ID or of "all"), lease declarations and reaper passes keeps the
    free and the leased lists disjoint, their union equal to the ID range
    0..50, and each of them free of duplicates. *)
Theorem reachable_partition s :
  reachable s →
  (∀ x, ¬ (x ∈ available_vms s ∧ x ∈ active_vms s)) ∧
  (∀ x, x ∈ available_vms s ∨ x ∈ active_vms s ↔ 0 ≤ x ≤ 50) ∧
  NoDup (available_vms s) ∧ NoDup (active_vms s).
Proof.
  intros Hinv%reachable_pool_inv. split; [|split; [|split]].
  - intros x [Hfree Hleased]. by eapply pool_inv_disjoint.
  - intros x. by apply pool_inv_range.
  - by apply pool_inv_NoDup_available.
  - by apply pool_inv_NoDup_active.
Qed.

Lemma reachable_partition_witness :
  let s := run_op Sweep (run_op (Release (IdStr "all"))
             (run_op (SetLease 0 120) (run_op Allocate VMStateManager._init_state))) in
  reachable s ∧
  (∀ x, ¬ (x ∈ available_vms s ∧ x ∈ active_vms s)) ∧
  (∀ x, x ∈ available_vms s ∨ x ∈ active_vms s ↔ 0 ≤ x ≤ 50) ∧
  NoDup (available_vms s) ∧ NoDup (active_vms s).
Proof.
  intros s.
  assert (reachable s) as H by (repeat apply reachable_step; apply reachable_init).
  split; [exact H|]. exact (reachable_partition s H).
Defined.

(** C3.  On a pool store (a free list without duplicates, as in every
    reachable store) with a non-empty free list, allocation returns the last
    element of the free list, pops it from the end of that list and appends
    it to the leased list; the lease dictionaries are not touched. *)
Theorem allocate_pops_last s :
  available_vms s ≠ [] → NoDup (available_vms s) →
  ∃ vm_id rest,
    available_vms s = rest ++ [vm_id] ∧
    last (available_vms s) = Some vm_id ∧
    _get_available_vm s =
      Return vm_id {| available_vms := rest;
                      active_vms := active_vms s ++ [vm_id];
                      vm_map := vm_map s |}.
Proof.
  intros Hne Hnd.
  destruct (last (available_vms s)) as [vm_id|] eqn:Hlast;
    [|by apply last_None in Hlast].
  destruct (proj1 (last_Some _ _) Hlast) as [rest Hrest].
  exists vm_id, rest. split; [done|]. split; [done|].
  destruct (get_available_vm_last s vm_id Hlast) as (available' & Hrem & ->).
  rewrite Hrest in Hrem, Hnd. rewrite list_remove_snoc in Hrem.
  - by injection Hrem as <-.
  - apply NoDup_app in Hnd as (_ & Hnd & _). intros Hin.
    apply (Hnd _ Hin). by left.
Qed.

Lemma allocate_pops_last_witness :
  ∃ vm_id rest,
    available_vms VMStateManager._init_state = rest ++ [vm_id] ∧
    last (available_vms VMStateManager._init_state) = Some vm_id ∧
    _get_available_vm VMStateManager._init_state =
      Return vm_id {| available_vms := rest;
                      active_vms := active_vms VMStateManager._init_state ++ [vm_id];
                      vm_map := vm_map VMStateManager._init_state |}.
Proof.
  apply (allocate_pops_last VMStateManager._init_state).
  - vm_compute. discriminate.
  - refine (bool_decide_unpack _ _). vm_compute. exact I.
Defined.

(** C4.  On an empty free list allocation fails with "No available VMs" and
    leaves the free list, the leased list and the lease dictionaries as they
    were. *)
Theorem allocate_exhausted s :
  available_vms s = [] → _get_available_vm s = Raise NoAvailableVMs s.
Proof. apply get_available_vm_empty. Qed.

Lemma allocate_exhausted_witness :
  let s := store_of (for_each (seqZ 0 51) (λ _, bind _get_available_vm (λ _, ret tt))
                       VMStateManager._init_state) in
  available_vms s = [] ∧ length (active_vms s) = 51%nat ∧
  _get_available_vm s = Raise NoAvailableVMs s.
Proof.
  intros s.
  assert (available_vms s = []) as H by (vm_compute; reflexivity).
  split; [exact H|]. split; [vm_compute; reflexivity|].
  exact (allocate_exhausted s H).
Defined.

(** What one pass does to one leased ID, by the test of line 216. *)
Lemma check_timeout_pass_leased s vm_id :
  NoDup (active_vms s) → vm_id ∈ active_vms s →
  ∃ s', _check_timeout_pass s = Return tt s' ∧ NoDup (active_vms s') ∧
    (expires (vm_map s) vm_id →
       (vm_id ∉ active_vms s') ∧ vm_id ∈ available_vms s' ∧
       vm_map s' !! vm_id = None) ∧
    (¬ expires (vm_map s) vm_id →
       vm_id ∈ active_vms s' ∧
       (vm_id ∈ available_vms s' ↔ vm_id ∈ available_vms s) ∧
       vm_map s' !! vm_id = sweep_entry <$> vm_map s !! vm_id).
Proof.
  intros Hnd Hin.
  destruct (check_timeout_pass_closed s Hnd) as (s' & E & Hact & Hav & Hmap).
  exists s'. split; [done|]. split; [rewrite Hact; by apply NoDup_filter|].
  specialize (Hmap vm_id). rewrite decide_True in Hmap by done.
  split; intros Hexp.
  - rewrite decide_True in Hmap by done. split; [|split; [|done]].
    + rewrite Hact, list_elem_of_filter. tauto.
    + rewrite Hav, elem_of_app, list_elem_of_filter. tauto.
  - rewrite decide_False in Hmap by done. split; [|split; [|done]].
    + rewrite Hact, list_elem_of_filter. tauto.
    + rewrite Hav, elem_of_app, list_elem_of_filter. tauto.
Qed.

(** C2.  One reaper pass over a store whose leased list has no duplicates
    returns, and for each leased ID: with the heartbeat flag set the
    remaining lifetime becomes the timeout budget and the flag is cleared,
    otherwise the remaining lifetime drops by 60, not below 0; an ID whose
    remaining lifetime is then at most 0 leaves the leased list, joins the
    free list and loses its lease dictionary, any other ID stays leased with
    the updated dictionary.  For a lease with budget and lifetime 120 and no
    heartbeat, two passes free the ID, while a heartbeat flag set between the
    two passes keeps it leased with the remaining lifetime back at 120. *)
Theorem reaper_pass_spec s :
  NoDup (active_vms s) →
  (∃ s', _check_timeout_pass s = Return tt s' ∧
     ∀ vm_id, vm_id ∈ active_vms s →
       let entry := default ∅ (vm_map s !! vm_id) in
       let remaining :=
         if truthy (get_visited entry) then as_int (get_timeout entry)
         else Z.max 0 (as_int (get_lifetime entry) - 60) in
       if decide (remaining ≤ 0) then
         (vm_id ∉ active_vms s') ∧ vm_id ∈ available_vms s' ∧
         vm_map s' !! vm_id = None
       else
         vm_id ∈ active_vms s' ∧
         (vm_id ∈ available_vms s' ↔ vm_id ∈ available_vms s) ∧
         ∃ entry', vm_map s' !! vm_id = Some entry' ∧
           as_int (get_lifetime entry') = remaining ∧
           truthy (get_visited entry') = false ∧
           entry' !! "timeout"%string = entry !! "timeout"%string) ∧
  (∀ vm_id entry,
     vm_id ∈ active_vms s → vm_map s !! vm_id = Some entry →
     as_int (get_timeout entry) = 120 → as_int (get_lifetime entry) = 120 →
     truthy (get_visited entry) = false →
     (∃ s2, _check_timeout 2 s = Return tt s2 ∧
        (vm_id ∉ active_vms s2) ∧ vm_id ∈ available_vms s2 ∧
        vm_map s2 !! vm_id = None) ∧
     (∃ s1 s2, _check_timeout_pass s = Return tt s1 ∧
        let heartbeat :=
          {| available_vms := available_vms s1;
             active_vms := active_vms s1;
             vm_map := alter (<["visited"%string := JBool true]>) vm_id (vm_map s1) |} in
        _check_timeout_pass heartbeat = Return tt s2 ∧
        vm_id ∈ active_vms s2 ∧
        ∃ entry2, vm_map s2 !! vm_id = Some entry2 ∧
          as_int (get_lifetime entry2) = 120 ∧
          truthy (get_visited entry2) = false)).
Proof.
  intros Hnd. split.
  - destruct (check_timeout_pass_closed s Hnd) as (s' & E & _).
    exists s'. split; [done|]. intros vm_id Hin entry remaining.
    destruct (check_timeout_pass_leased s vm_id Hnd Hin)
      as (s'' & E' & _ & Hexp & Hkept).
    rewrite E in E'. injection E' as <-.
    assert (expires (vm_map s) vm_id ↔ remaining ≤ 0) as Hiff.
    { unfold expires. by rewrite lifetime_sweep_entry. }
    destruct (decide (remaining ≤ 0)) as [Hle|Hgt].
    + apply Hexp. by apply Hiff.
    + destruct Hkept as (? & ? & Hmap); [by rewrite Hiff|].
      split; [done|]. split; [done|].
      destruct (vm_map s !! vm_id) as [e|] eqn:Hentry.
      * exists (sweep_entry e). subst entry. simpl in *.
        split; [done|]. split; [by rewrite lifetime_sweep_entry|].
        split; [apply visited_sweep_entry|apply timeout_sweep_entry].
      * exfalso. apply Hgt, Hiff. by apply expires_absent.
  - intros vm_id entry Hin Hentry Htimeout Hlifetime Hvisited.
    destruct (check_timeout_pass_leased s vm_id Hnd Hin)
      as (s1 & E1 & Hnd1 & _ & Hkept).
    destruct Hkept as (Hin1 & _ & Hmap1).
    { unfold expires. rewrite Hentry. simpl.
      rewrite lifetime_sweep_entry, Hvisited, Hlifetime. lia. }
    rewrite Hentry in Hmap1. simpl in Hmap1. split.
    + destruct (check_timeout_pass_leased s1 vm_id Hnd1 Hin1)
        as (s2 & E2 & _ & Hexp & _).
      exists s2. split.
      { cbn [_check_timeout]. unfold bind. rewrite E1.
        destruct (_check_timeout_pass s1); [|done]. by injection E2 as -> ->. }
      apply Hexp. unfold expires. rewrite Hmap1. simpl.
      rewrite !lifetime_sweep_entry, visited_sweep_entry, Hvisited, Hlifetime. lia.
    + exists s1.
      set (heartbeat := {| available_vms := available_vms s1;
                           active_vms := active_vms s1;
                           vm_map := alter (<["visited"%string := JBool true]>)
                                       vm_id (vm_map s1) |}).
      destruct (check_timeout_pass_leased heartbeat vm_id Hnd1 Hin1)
        as (s2 & E2 & _ & _ & Hkept).
      assert (vm_map heartbeat !! vm_id =
                Some (<["visited"%string := JBool true]> (sweep_entry entry))) as Hhb.
      { subst heartbeat. cbn [vm_map]. by rewrite lookup_alter_eq, Hmap1. }
      assert (as_int (get_lifetime (sweep_entry
                (<["visited"%string := JBool true]> (sweep_entry entry)))) = 120) as Hlife.
      { rewrite lifetime_sweep_entry. unfold get_visited at 1.
        rewrite lookup_insert_eq. simpl. unfold get_timeout.
        rewrite lookup_insert_ne by done. rewrite timeout_sweep_entry. done. }
      destruct Hkept as (Hin2 & _ & Hmap2).
      { unfold expires. rewrite Hhb. simpl. rewrite Hlife. lia. }
      exists s2. split; [done|]. split; [done|]. split; [done|].
      rewrite Hhb in Hmap2. simpl in Hmap2.
      eexists. split; [done|]. split; [done|]. apply visited_sweep_entry.
Qed.

Lemma reaper_pass_spec_witness :
  let s := run_op (SetLease 0 120) (run_op Allocate VMStateManager._init_state) in
  NoDup (active_vms s) ∧
  (∃ s2, _check_timeout 2 s = Return tt s2 ∧
     (0 ∉ active_vms s2) ∧ 0 ∈ available_vms s2 ∧ vm_map s2 !! 0 = None) ∧
  (∃ s1 s2, _check_timeout_pass s = Return tt s1 ∧
     let heartbeat :=
       {| available_vms := available_vms s1;
          active_vms := active_vms s1;
          vm_map := alter (<["visited"%string := JBool true]>) 0 (vm_map s1) |} in
     _check_timeout_pass heartbeat = Return tt s2 ∧
     0 ∈ active_vms s2 ∧
     ∃ entry2, vm_map s2 !! 0 = Some entry2 ∧
       as_int (get_lifetime entry2) = 120 ∧
       truthy (get_visited entry2) = false).
Proof.
  intros s.
  assert (NoDup (active_vms s)) as Hnd
    by (refine (bool_decide_unpack _ _); vm_compute; exact I).
  split; [exact Hnd|].
  apply (proj2 (reaper_pass_spec s Hnd) 0
           (<["timeout"%string := JInt 120]> (<["lifetime"%string := JInt 120]> ∅))).
  - refine (bool_decide_unpack _ _). vm_compute. exact I.
  - vm_compute. reflexivity.
  - vm_compute. reflexivity.
  - vm_compute. reflexivity.
  - vm_compute. reflexivity.
Defined.

(** The loop body returns whenever the ID it visits is still in [active]. *)
Lemma sweep_step_returns loc x :
  x ∈ l_active loc →
  ∃ loc', sweep_step loc x = Some loc' ∧
    ((expires (l_map loc) x ∧ l_active loc ≡ₚ x :: l_active loc' ∧
      l_available loc' = l_available loc ++ [x] ∧
      l_map loc' = delete x (l_map loc)) ∨
     (¬ expires (l_map loc) x ∧ l_active loc' = l_active loc ∧
      l_available loc' = l_available loc ∧
      l_map loc' = alter sweep_entry x (l_map loc))).
Proof.
  destruct loc as [active available m]. cbn [l_active l_available l_map].
  intros Hin. destruct (decide (expires m x)) as [Hexp|Hexp].
  - destruct (list_remove_is_Some _ _ Hin) as [active' Hrem].
    eexists. split; [by apply sweep_step_expired|]. left.
    split; [done|]. split; [by apply list_remove_Some_perm|done].
  - eexists. split; [by apply sweep_step_kept|]. right. done.
Qed.

(** So the pass returns on every store: [active.remove] always finds the ID
    it is asked to remove. *)
Lemma sweep_loop_returns snapshot : ∀ loc,
  snapshot ⊆+ l_active loc → is_Some (sweep_loop snapshot loc).
Proof.
  induction snapshot as [|x rest IH]; intros loc Hsub; [by eexists|].
  pose proof Hsub as (k & Hk & Hrest)%submseteq_cons_l.
  assert (x ∈ l_active loc) as Hin by (rewrite Hk; by left).
  destruct (sweep_step_returns loc x Hin) as (loc1 & Hstep & Hcase).
  cbn [sweep_loop]. rewrite Hstep. simpl. apply IH.
  destruct Hcase as [(_ & Hperm & _)|(_ & -> & _)].
  - rewrite Hperm in Hsub. by apply (submseteq_app_inv_l _ _ [x]).
  - rewrite Hk. by apply submseteq_cons.
Qed.

Lemma check_timeout_pass_returns s : ∃ s', _check_timeout_pass s = Return tt s'.
Proof.
  destruct (sweep_loop_returns (active_vms s)
              (Locals (active_vms s) (available_vms s) (vm_map s)))
    as [loc' Hloop]; [done|].
  unfold _check_timeout_pass. rewrite Hloop. by eexists.
Qed.

(** An ID without a dictionary is dropped from [active] at each of its
    occurrences in the snapshot, duplicates or not. *)
Lemma sweep_loop_unrecorded vm_id snapshot : ∀ loc,
  snapshot ⊆+ l_active loc →
  l_map loc !! vm_id = None →
  (length (filter (λ y, y = vm_id) (l_active loc)) ≤
     length (filter (λ y, y = vm_id) snapshot))%nat →
  vm_id ∈ l_available loc ∨ vm_id ∈ snapshot →
  ∃ loc', sweep_loop snapshot loc = Some loc' ∧
    (vm_id ∉ l_active loc') ∧ vm_id ∈ l_available loc' ∧
    l_map loc' !! vm_id = None.
Proof.
  induction snapshot as [|x rest IH]; intros loc Hsub Hnone Hcount Hfreed.
  - exists loc. split; [done|]. split; [|split; [|done]].
    + apply (filter_nil_not_elem_of (λ y, y = vm_id)); [|done].
      apply nil_length_inv. simpl in Hcount. lia.
    + destruct Hfreed as [?|Hin]; [done|]. by apply elem_of_nil in Hin.
  - pose proof Hsub as (k & Hk & Hrest)%submseteq_cons_l.
    assert (x ∈ l_active loc) as Hin by (rewrite Hk; by left).
    destruct (sweep_step_returns loc x Hin) as (loc1 & Hstep & Hcase).
    cbn [sweep_loop]. rewrite Hstep. simpl.
    destruct Hcase as [(Hexp & Hperm & Hav & Hmap)|(Hexp & Hact & Hav & Hmap)].
    + apply IH.
      * rewrite Hperm in Hsub. by apply (submseteq_app_inv_l _ _ [x]).
      * rewrite Hmap, lookup_delete. by case_decide.
      * rewrite Hperm, !filter_cons in Hcount.
        destruct (decide (x = vm_id)); simpl in Hcount; lia.
      * rewrite Hav, elem_of_app, list_elem_of_singleton.
        rewrite elem_of_cons in Hfreed. tauto.
    + assert (x ≠ vm_id) as Hne.
      { intros ->. by apply Hexp, expires_absent. }
      apply IH.
      * rewrite Hact, Hk. by apply submseteq_cons.
      * by rewrite Hmap, lookup_alter_ne.
      * rewrite Hact. by rewrite (filter_cons_False _ x rest) in Hcount.
      * rewrite Hav. rewrite elem_of_cons in Hfreed.
        destruct Hfreed as [?|[?|?]]; [by left|congruence|by right].
Qed.

(** C10.  A leased ID without a lease dictionary is read as having lifetime
    0, so a single reaper pass moves it from the leased list to the free
    list (and it still has no dictionary afterwards). *)
Theorem reaper_reclaims_unrecorded s vm_id :
  vm_id ∈ active_vms s → vm_map s !! vm_id = None →
  as_int (get_lifetime (sweep_entry (default ∅ (vm_map s !! vm_id)))) = 0 ∧
  ∃ s', _check_timeout_pass s = Return tt s' ∧
    (vm_id ∉ active_vms s') ∧ vm_id ∈ available_vms s' ∧
    vm_map s' !! vm_id = None.
Proof.
  intros Hin Hnone. split; [by rewrite Hnone|].
  destruct (sweep_loop_unrecorded vm_id (active_vms s)
              (Locals (active_vms s) (available_vms s) (vm_map s)))
    as (loc' & Hloop & Hgone & Hfree & Hmap); [done|done|done|by right|].
  unfold _check_timeout_pass. rewrite Hloop. by eexists.
Qed.

Lemma reaper_reclaims_unrecorded_witness :
  let s := run_op Allocate VMStateManager._init_state in
  vm_map s !! 0 = None ∧
  ∃ s', _check_timeout_pass s = Return tt s' ∧
    (0 ∉ active_vms s') ∧ 0 ∈ available_vms s' ∧ vm_map s' !! 0 = None.
Proof.
  intros s.
  assert (vm_map s !! 0 = None) as Hnone by (vm_compute; reflexivity).
  split; [exact Hnone|].
  apply (reaper_reclaims_unrecorded s 0); [|exact Hnone].
  refine (bool_decide_unpack _ _). vm_compute. exact I.
Defined.

(** C5.  What the code does on a voluntary release: [_release_vm] returns
    with the lease dictionaries as they were ([remove_vm_map] is never
    called).  On a fresh pool with ID 0 leased with timeout 100, releasing 0
    moves it from the leased list to the free list and its dictionary stays
    in the map. *)
Theorem release_keeps_lease_record :
  (∀ vm_id s, ∃ s', _release_vm vm_id s = Return tt s' ∧ vm_map s' = vm_map s) ∧
  let s := run_op (SetLease 0 100) (run_op Allocate VMStateManager._init_state) in
  0 ∈ active_vms s ∧
  ∃ s', _release_vm (IdInt 0) s = Return tt s' ∧
    (0 ∉ active_vms s') ∧ 0 ∈ available_vms s' ∧
    vm_map s' !! 0 =
      Some (<["timeout"%string := JInt 100]> (<["lifetime"%string := JInt 100]> ∅)).
Proof.
  split.
  { intros vm_id s. destruct (release_vm_arg_returns vm_id s) as (s' & E & Hm & _).
    by exists s'. }
  intros s. split; [refine (bool_decide_unpack _ _); vm_compute; exact I|].
  eexists. split; [vm_compute; reflexivity|].
  split; [|split].
  - refine (bool_decide_unpack _ _). vm_compute. exact I.
  - refine (bool_decide_unpack _ _). vm_compute. exact I.
  - vm_compute. reflexivity.
Qed.

(** C6 (as the code has it).  [_set_timeout] never fails and never looks at
    the leased list: for every ID it writes a dictionary whose timeout and
    lifetime are the given timeout and which holds no heartbeat flag (read
    as false by the reaper); the two lists are not touched. *)
Theorem set_timeout_unconditional s vm_id timeout :
  ∃ entry,
    _set_timeout vm_id timeout s =
      Return tt {| available_vms := available_vms s;
                   active_vms := active_vms s;
                   vm_map := <[vm_id := entry]> (vm_map s) |} ∧
    get_timeout entry = JInt timeout ∧ get_lifetime entry = JInt timeout ∧
    entry !! "visited"%string = None ∧ truthy (get_visited entry) = false.
Proof. eexists. split; [reflexivity|]. by repeat split. Qed.

(** C6, refuted as stated: on the initial store no ID is leased, yet
    declaring a lease for ID 7 returns normally. *)
Lemma set_timeout_unleased_returns :
  ¬ (∀ s vm_id timeout,
       vm_id ∉ active_vms s → ∃ e s', _set_timeout vm_id timeout s = Raise e s').
Proof.
  intros H. destruct (H VMStateManager._init_state 7 100) as (e & s' & E).
  - cbn. apply not_elem_of_nil.
  - discriminate E.
Qed.

(** ** Handlers and the store *)

Lemma get_vm_env_leased docker vm_id s :
  vm_id ∈ active_vms s → _get_vm_env docker vm_id s = from_runtime docker s.
Proof. intros H. unfold _get_vm_env. by rewrite decide_True. Qed.

Lemma get_vm_env_unleased docker vm_id s :
  vm_id ∉ active_vms s →
  _get_vm_env docker vm_id s = Raise (VMNotAvailable vm_id) s.
Proof. intros H. unfold _get_vm_env. by rewrite decide_False. Qed.

(** A screenshot request never writes the store. *)
Lemma screenshot_keeps_store docker vm_id s : (screenshot docker vm_id s).2 = s.
Proof.
  unfold screenshot, try_except, mbind, M_bind, bind, _get_vm_env.
  destruct (decide (vm_id ∈ active_vms s)); [|done].
  destruct docker as [vm_env|]; [|done]. simpl.
  by destruct (env_render vm_env).
Qed.

(** A step request never writes the lease dictionaries. *)
Lemma step_keeps_vm_map docker action vm_id s :
  vm_map (step docker action vm_id s).2 = vm_map s.
Proof.
  unfold step, try_except, mbind, M_bind, bind, _get_vm_env.
  destruct (decide (vm_id ∈ active_vms s)); [|done].
  destruct docker as [vm_env|]; [|done]. simpl.
  destruct (env_step vm_env action) as [[[obs reward] [|]]|]; simpl; try done.
  destruct (env_evaluate vm_env); simpl; [|done].
  destruct (release_vm_arg_returns (IdInt vm_id) s) as (s' & E & Hmap & _).
  simpl in E. by rewrite E.
Qed.

(** C7.  What the code does on activity on a leased VM: a screenshot
    request never writes the store and a step request never writes the
    lease dictionaries.  A successful screenshot and a successful non-final
    step on ID 0, leased with budget 120, leave the store as it was, without
    a heartbeat flag in the lease dictionary, so the next reaper pass lowers
    the remaining lifetime to 60 instead of restoring 120. *)
Theorem activity_sets_no_heartbeat :
  (∀ docker vm_id s, (screenshot docker vm_id s).2 = s) ∧
  (∀ docker action vm_id s, vm_map (step docker action vm_id s).2 = vm_map s) ∧
  let s := run_op (SetLease 0 120) (run_op Allocate VMStateManager._init_state) in
  let docker := Some {| env_render := Some "png"%string;
                        env_reset := λ _, None;
                        env_step := λ _, Some ("png"%string, 0, false);
                        env_evaluate := None |} in
  screenshot docker 0 s = (ScreenshotOk "png" 0, s) ∧
  step docker "click" 0 s = (StepOk "png" false 0, s) ∧
  (∃ entry, vm_map s !! 0 = Some entry ∧ entry !! "visited"%string = None) ∧
  ∃ s' entry', _check_timeout_pass s = Return tt s' ∧
    vm_map s' !! 0 = Some entry' ∧ get_lifetime entry' = JInt 60.
Proof.
  split; [apply screenshot_keeps_store|]. split; [apply step_keeps_vm_map|].
  intros s docker. split; [vm_compute; reflexivity|].
  split; [vm_compute; reflexivity|]. split.
  - eexists. split; vm_compute; reflexivity.
  - do 2 eexists. split; [vm_compute; reflexivity|].
    split; vm_compute; reflexivity.
Qed.

Lemma for_each_release_vm xs : ∀ available rest m,
  for_each xs VMStateManager.release_vm
    {| available_vms := available; active_vms := xs ++ rest; vm_map := m |} =
  Return tt {| available_vms := available ++ xs; active_vms := rest; vm_map := m |}.
Proof.
  induction xs as [|x xs IH]; intros available rest m.
  - simpl. by rewrite app_nil_r.
  - cbn [for_each]. unfold bind, VMStateManager.release_vm at 1.
    cbn [available_vms active_vms vm_map].
    rewrite decide_True by (by left).
    change ((x :: xs) ++ rest) with (x :: (xs ++ rest)).
    rewrite list_remove_head, IH. by rewrite <-(assoc_L (++)).
Qed.

Lemma release_vm_idempotent n s :
  NoDup (active_vms s) →
  ∃ s', VMStateManager.release_vm n s = Return tt s' ∧
    VMStateManager.release_vm n s' = Return tt s' ∧
    (n ∉ active_vms s') ∧ (n ∉ active_vms s → s' = s).
Proof.
  intros Hnd. destruct (decide (n ∈ active_vms s)) as [Hin|Hout].
  - destruct (release_vm_present _ _ Hin) as (active' & Hrem & ->).
    rewrite (list_remove_NoDup_filter _ _ Hnd Hin) in Hrem. injection Hrem as <-.
    assert (n ∉ filter (λ y, y ≠ n) (active_vms s)) as Hgone.
    { rewrite list_elem_of_filter. tauto. }
    eexists. split; [done|]. split; [by apply release_vm_absent|]. by split.
  - exists s. rewrite release_vm_absent by done. by repeat split.
Qed.

(** C8.  On a pool store releasing never fails, releasing the same ID (or
    "all") a second time changes nothing, and releasing an ID that is free
    or outside 0..50 leaves the store as it was. *)
Theorem release_idempotent s vm_id :
  pool_inv s →
  ∃ s', _release_vm vm_id s = Return tt s' ∧
    _release_vm vm_id s' = Return tt s' ∧
    ∀ n, vm_id = IdInt n → n ∈ available_vms s ∨ ¬ (0 ≤ n ≤ 50) → s' = s.
Proof.
  intros Hinv. destruct vm_id as [n|name]; cbn [_release_vm].
  - case_bool_decide as Hle.
    + destruct (release_vm_idempotent n s (pool_inv_NoDup_active s Hinv))
        as (s' & E1 & E2 & _ & Hsame).
      exists s'. split; [done|]. split; [done|].
      intros ? [= <-] Hn. apply Hsame. destruct Hn as [Hfree|Hout].
      * by apply pool_inv_disjoint.
      * intros Hin. apply Hout, (pool_inv_range s n Hinv). by right.
    + by exists s.
  - case_bool_decide as Hall; [|by exists s].
    destruct s as [available active m]. cbn [active_vms].
    pose proof (for_each_release_vm active available [] m) as E.
    rewrite app_nil_r in E. rewrite E. eexists. split; [done|]. by split.
Qed.

Lemma release_idempotent_witness :
  let s := run_op Allocate (run_op Allocate VMStateManager._init_state) in
  ∃ s', _release_vm (IdInt 1) s = Return tt s' ∧
    _release_vm (IdInt 1) s' = Return tt s' ∧
    ∀ n, IdInt 1 = IdInt n → n ∈ available_vms s ∨ ¬ (0 ≤ n ≤ 50) → s' = s.
Proof.
  intros s. apply (release_idempotent s (IdInt 1)).
  unfold pool_inv. refine (bool_decide_unpack _ _). vm_compute. exact I.
Defined.

(** C9.  Building the session handle fails with "VM ID ... not available"
    exactly when the ID is not in the leased list (for a leased ID the
    outcome is the one of the [DesktopEnv] constructor); on a pool store,
    after a shutdown request for an ID a screenshot request for the same ID
    answers 400 with that error. *)
Theorem session_handle_needs_lease :
  (∀ docker vm_id s,
     _get_vm_env docker vm_id s = Raise (VMNotAvailable vm_id) s ↔
     vm_id ∉ active_vms s) ∧
  (∀ docker vm_id s,
     vm_id ∈ active_vms s → _get_vm_env docker vm_id s = from_runtime docker s) ∧
  (∀ docker vm_id s,
     pool_inv s →
     ∃ s', shutdown (IdInt vm_id) s = (ShutdownOk (IdInt vm_id), s') ∧
       screenshot docker vm_id s' = (Http400 (VMNotAvailable vm_id), s')).
Proof.
  split; [|split].
  - intros docker vm_id s. split.
    + intros E Hin. rewrite get_vm_env_leased in E by done.
      by destruct docker.
    + apply get_vm_env_unleased.
  - intros. by apply get_vm_env_leased.
  - intros docker vm_id s Hinv.
    assert (∃ s', _release_vm (IdInt vm_id) s = Return tt s' ∧
                  vm_id ∉ active_vms s') as (s' & E & Hgone).
    { cbn [_release_vm]. case_bool_decide as Hle.
      - destruct (release_vm_idempotent vm_id s (pool_inv_NoDup_active s Hinv))
          as (s' & E & _ & Hgone & _). by exists s'.
      - exists s. split; [done|]. intros Hin.
        apply Hle. apply (pool_inv_range s vm_id Hinv). by right. }
    exists s'. split.
    + unfold shutdown, try_except, mbind, M_bind, bind. by rewrite E.
    + unfold screenshot, try_except, mbind, M_bind, bind.
      by rewrite get_vm_env_unleased.
Qed.

Lemma session_handle_needs_lease_witness :
  let docker := Some {| env_render := Some "png"%string;
                        env_reset := λ _, Some ("png"%string, "task"%string);
                        env_step := λ _, None;
                        env_evaluate := None |} in
  let r := reset docker "config" 100 VMStateManager._init_state in
  r.1 = ResetOk "png" "task" 0 ∧ pool_inv r.2 ∧
  ∃ s', shutdown (IdInt 0) r.2 = (ShutdownOk (IdInt 0), s') ∧
    screenshot docker 0 s' = (Http400 (VMNotAvailable 0), s').
Proof.
  intros docker r.
  assert (pool_inv r.2) as Hinv
    by (unfold pool_inv; refine (bool_decide_unpack _ _); vm_compute; exact I).
  split; [vm_compute; reflexivity|]. split; [exact Hinv|].
  exact (proj2 (proj2 session_handle_needs_lease) docker 0 r.2 Hinv).
Defined.

(** * Further properties of the code *)

(** ** Allocation and release together *)

Lemma get_available_vm_snoc s rest vm_id :
  available_vms s = rest ++ [vm_id] → vm_id ∉ rest →
  _get_available_vm s =
    Return vm_id {| available_vms := rest;
                    active_vms := active_vms s ++ [vm_id];
                    vm_map := vm_map s |}.
Proof.
  intros Hav Hfresh.
  assert (last (available_vms s) = Some vm_id) as Hlast
    by (rewrite Hav; apply last_snoc).
  destruct (get_available_vm_last s vm_id Hlast) as (available' & Hrem & ->).
  rewrite Hav, list_remove_snoc in Hrem by done. by injection Hrem as <-.
Qed.

Lemma release_vm_filter n s :
  NoDup (active_vms s) → n ∈ active_vms s →
  VMStateManager.release_vm n s =
    Return tt {| available_vms := available_vms s ++ [n];
                 active_vms := filter (λ y, y ≠ n) (active_vms s);
                 vm_map := vm_map s |}.
Proof.
  intros Hnd Hin. destruct (release_vm_present _ _ Hin) as (active' & Hrem & ->).
  rewrite (list_remove_NoDup_filter _ _ Hnd Hin) in Hrem. by injection Hrem as <-.
Qed.

Lemma pool_inv_last s vm_id :
  pool_inv s → last (available_vms s) = Some vm_id →
  ∃ rest, available_vms s = rest ++ [vm_id] ∧ (vm_id ∉ rest) ∧
    (vm_id ∉ active_vms s) ∧ 0 ≤ vm_id ≤ 50.
Proof.
  intros Hinv Hlast. destruct (proj1 (last_Some _ _) Hlast) as [rest Hrest].
  assert (vm_id ∈ available_vms s) as Hin by by apply last_Some_elem_of.
  exists rest. split; [done|]. split; [|split].
  - pose proof (pool_inv_NoDup_available s Hinv) as Hnd. rewrite Hrest in Hnd.
    apply NoDup_app in Hnd as (_ & Hnd & _). intros Hr. apply (Hnd _ Hr). by left.
  - by apply pool_inv_disjoint.
  - apply (pool_inv_range s vm_id Hinv). by left.
Qed.

(** X1.  On a pool store an allocation never returns an ID that is leased:
    the ID it returns was free, lies in 0..50 and was not in the leased
    list. *)
Theorem allocate_never_returns_leased s vm_id s' :
  pool_inv s → _get_available_vm s = Return vm_id s' →
  vm_id ∈ available_vms s ∧ (vm_id ∉ active_vms s) ∧ 0 ≤ vm_id ≤ 50 ∧
  vm_id ∈ active_vms s'.
Proof.
  intros Hinv E. destruct (last (available_vms s)) as [v|] eqn:Hlast.
  - destruct (pool_inv_last s v Hinv Hlast) as (rest & Hrest & Hfresh & Hout & Hrange).
    rewrite (get_available_vm_snoc s rest v Hrest Hfresh) in E.
    injection E as <- <-. split; [by apply last_Some_elem_of|].
    split; [done|]. split; [done|]. cbn. apply elem_of_app. right. by left.
  - apply last_None in Hlast. by rewrite get_available_vm_empty in E.
Qed.

Lemma allocate_never_returns_leased_witness :
  let s := run_op Allocate VMStateManager._init_state in
  ∃ s', _get_available_vm s = Return 1 s' ∧
    1 ∈ available_vms s ∧ (1 ∉ active_vms s) ∧ 0 ≤ 1 ≤ 50 ∧ 1 ∈ active_vms s'.
Proof.
  intros s. eexists. split; [vm_compute; reflexivity|].
  eapply (allocate_never_returns_leased s 1).
  - unfold pool_inv. refine (bool_decide_unpack _ _). vm_compute. exact I.
  - vm_compute. reflexivity.
Defined.

(** X2.  On a pool store with a free ID, allocating and then releasing the
    returned ID gives back exactly the store one started from. *)
Theorem allocate_then_release s :
  pool_inv s → available_vms s ≠ [] →
  ∃ vm_id s1, _get_available_vm s = Return vm_id s1 ∧
    _release_vm (IdInt vm_id) s1 = Return tt s.
Proof.
  intros Hinv Hne.
  destruct (last (available_vms s)) as [v|] eqn:Hlast;
    [|by apply last_None in Hlast].
  destruct (pool_inv_last s v Hinv Hlast) as (rest & Hrest & Hfresh & Hout & Hrange).
  eexists v, _. split; [by apply get_available_vm_snoc|].
  cbn [_release_vm]. rewrite bool_decide_eq_true_2 by lia.
  unfold VMStateManager.release_vm. cbn [available_vms active_vms vm_map].
  rewrite decide_True by (apply elem_of_app; right; by left).
  rewrite list_remove_snoc by done. destruct s as [available active m].
  cbn in *. by rewrite Hrest.
Qed.

Lemma allocate_then_release_witness :
  let s := run_op (SetLease 0 100) (run_op Allocate VMStateManager._init_state) in
  ∃ vm_id s1, _get_available_vm s = Return vm_id s1 ∧
    _release_vm (IdInt vm_id) s1 = Return tt s.
Proof.
  intros s. apply (allocate_then_release s).
  - unfold pool_inv. refine (bool_decide_unpack _ _). vm_compute. exact I.
  - vm_compute. discriminate.
Defined.

(** X3.  On a pool store, releasing a leased ID and then allocating returns
    that same ID (the most recently freed one comes first); the free list is
    as before and the ID has moved to the end of the leased list. *)
Theorem release_then_allocate s n :
  pool_inv s → n ∈ active_vms s →
  ∃ s1, _release_vm (IdInt n) s = Return tt s1 ∧
    _get_available_vm s1 =
      Return n {| available_vms := available_vms s;
                  active_vms := filter (λ y, y ≠ n) (active_vms s) ++ [n];
                  vm_map := vm_map s |}.
Proof.
  intros Hinv Hin.
  assert (0 ≤ n ≤ 50) as Hrange by (apply (pool_inv_range s n Hinv); by right).
  eexists. split.
  - cbn [_release_vm]. rewrite bool_decide_eq_true_2 by lia.
    apply release_vm_filter; [by apply pool_inv_NoDup_active|done].
  - rewrite (get_available_vm_snoc _ (available_vms s) n); [done|done|].
    intros Hfree. by apply (pool_inv_disjoint s n Hinv).
Qed.

Lemma release_then_allocate_witness :
  let s := run_op Allocate (run_op Allocate VMStateManager._init_state) in
  ∃ s1, _release_vm (IdInt 0) s = Return tt s1 ∧
    _get_available_vm s1 =
      Return 0 {| available_vms := available_vms s;
                  active_vms := filter (λ y, y ≠ 0) (active_vms s) ++ [0];
                  vm_map := vm_map s |}.
Proof.
  intros s. apply (release_then_allocate s 0).
  - unfold pool_inv. refine (bool_decide_unpack _ _). vm_compute. exact I.
  - refine (bool_decide_unpack _ _). vm_compute. exact I.
Defined.

(** X4.  A shutdown request for "all" answers 200 on every store, empties
    the leased list and appends the leased IDs to the free list in the
    order they were leased; the lease dictionaries are all kept. *)
Theorem shutdown_all s :
  shutdown (IdStr "all") s =
    (ShutdownOk (IdStr "all"),
     {| available_vms := available_vms s ++ active_vms s;
        active_vms := [];
        vm_map := vm_map s |}).
Proof.
  unfold shutdown, try_except, mbind, M_bind, bind. cbn [_release_vm].
  rewrite bool_decide_eq_true_2 by done.
  pose proof (for_each_release_vm (active_vms s) (available_vms s) [] (vm_map s)) as E.
  rewrite app_nil_r in E. destruct s as [available active m]. cbn in *.
  by rewrite E.
Qed.

(** ** The reset and step handlers *)

Lemma check_timeout_pass_unrecorded s vm_id :
  vm_id ∈ active_vms s → vm_map s !! vm_id = None →
  ∃ s', _check_timeout_pass s = Return tt s' ∧
    (vm_id ∉ active_vms s') ∧ vm_id ∈ available_vms s'.
Proof.
  intros Hin Hnone.
  destruct (sweep_loop_unrecorded vm_id (active_vms s)
              (Locals (active_vms s) (available_vms s) (vm_map s)))
    as (loc' & Hloop & Hgone & Hfree & _); [done|done|done|by right|].
  unfold _check_timeout_pass. rewrite Hloop. by eexists.
Qed.

(** X5.  When the free list ends in an ID that occurs only there and the
    runtime resets successfully, a reset request answers 200 with that ID,
    pops it from the free list, appends it to the leased list and writes its
    lease dictionary with timeout and lifetime equal to the declared
    timeout. *)
Theorem reset_leases s env task_config timeout rest vm_id shot problem :
  available_vms s = rest ++ [vm_id] → vm_id ∉ rest →
  env_reset env task_config = Some (shot, problem) →
  reset (Some env) task_config timeout s =
    (ResetOk shot problem vm_id,
     {| available_vms := rest;
        active_vms := active_vms s ++ [vm_id];
        vm_map := <[vm_id := <["timeout"%string := JInt timeout]>
                               (<["lifetime"%string := JInt timeout]> ∅)]>
                    (vm_map s) |}).
Proof.
  intros Hav Hfresh Hreset.
  unfold reset, try_except, mbind, M_bind, bind.
  rewrite (get_available_vm_snoc s rest vm_id Hav Hfresh).
  rewrite get_vm_env_leased by (cbn; apply elem_of_app; right; by left).
  cbn. by rewrite Hreset.
Qed.

Lemma reset_leases_witness :
  let env := {| env_render := None;
                env_reset := λ _, Some ("png"%string, "task"%string);
                env_step := λ _, None;
                env_evaluate := None |} in
  let r := reset (Some env) "config" 90 VMStateManager._init_state in
  r.1 = ResetOk "png" "task" 0 ∧ active_vms r.2 = [0] ∧
  vm_map r.2 !! 0 = Some (<["timeout"%string := JInt 90]>
                            (<["lifetime"%string := JInt 90]> ∅)).
Proof.
  intros env r. subst r.
  rewrite (reset_leases VMStateManager._init_state env "config" 90
             (reverse (seqZ 1 50)) 0 "png" "task").
  - split; [reflexivity|]. split; [reflexivity|]. cbn. apply lookup_insert_eq.
  - vm_compute. reflexivity.
  - refine (bool_decide_unpack _ _). vm_compute. exact I.
  - reflexivity.
Defined.

(** X6.  When the [DesktopEnv] constructor or the runtime's reset raises, a
    reset request answers 400, yet the ID it allocated stays leased and gets
    no lease dictionary; if no older dictionary is stored for that ID, the
    next reaper pass returns it to the free list. *)
Theorem reset_failure_keeps_lease s docker task_config timeout rest vm_id :
  available_vms s = rest ++ [vm_id] → vm_id ∉ rest →
  (docker = None ∨ ∃ env, docker = Some env ∧ env_reset env task_config = None) →
  let s1 := {| available_vms := rest;
               active_vms := active_vms s ++ [vm_id];
               vm_map := vm_map s |} in
  reset docker task_config timeout s = (Http400 RuntimeFailure, s1) ∧
  (vm_map s !! vm_id = None →
   ∃ s2, _check_timeout_pass s1 = Return tt s2 ∧
     (vm_id ∉ active_vms s2) ∧ vm_id ∈ available_vms s2).
Proof.
  intros Hav Hfresh Hfail s1. split.
  - unfold reset, try_except, mbind, M_bind, bind.
    rewrite (get_available_vm_snoc s rest vm_id Hav Hfresh).
    rewrite get_vm_env_leased by (cbn; apply elem_of_app; right; by left).
    destruct Hfail as [->|(env & -> & Hreset)]; cbn; [done|]. by rewrite Hreset.
  - intros Hnone. apply check_timeout_pass_unrecorded; [|done].
    cbn. apply elem_of_app. right. by left.
Qed.

Lemma reset_failure_keeps_lease_witness :
  let r := reset None "config" 90 VMStateManager._init_state in
  r.1 = Http400 RuntimeFailure ∧ active_vms r.2 = [0] ∧ vm_map r.2 !! 0 = None ∧
  ∃ s2, _check_timeout_pass r.2 = Return tt s2 ∧
    (0 ∉ active_vms s2) ∧ 0 ∈ available_vms s2.
Proof.
  intros r.
  destruct (reset_failure_keeps_lease VMStateManager._init_state None "config" 90
              (reverse (seqZ 1 50)) 0) as [E Hpass].
  - vm_compute. reflexivity.
  - refine (bool_decide_unpack _ _). vm_compute. exact I.
  - by left.
  - subst r. rewrite E. split; [reflexivity|]. split; [reflexivity|].
    split; [reflexivity|]. apply Hpass. reflexivity.
Defined.

(** X7.  On an empty free list a reset request answers 400 with "No
    available VMs" and writes nothing, whatever the runtime would do. *)
Theorem reset_exhausted s docker task_config timeout :
  available_vms s = [] →
  reset docker task_config timeout s = (Http400 NoAvailableVMs, s).
Proof.
  intros Hav. unfold reset, try_except, mbind, M_bind, bind.
  by rewrite get_available_vm_empty.
Qed.

Lemma reset_exhausted_witness :
  let s := store_of (for_each (seqZ 0 51) (λ _, bind _get_available_vm (λ _, ret tt))
                       VMStateManager._init_state) in
  reset None "config" 90 s = (Http400 NoAvailableVMs, s).
Proof.
  intros s. apply (reset_exhausted s). vm_compute. reflexivity.
Defined.

(** X8.  On a pool store, a step on a leased ID for which the runtime
    reports the task finished and the evaluation succeeds answers 200 with
    the evaluated reward and releases the ID: it leaves the leased list and
    is appended to the free list. *)
Theorem step_final_releases s env action vm_id obs reward reward' :
  pool_inv s → vm_id ∈ active_vms s →
  env_step env action = Some (obs, reward, true) →
  env_evaluate env = Some reward' →
  step (Some env) action vm_id s =
    (StepOk obs true reward',
     {| available_vms := available_vms s ++ [vm_id];
        active_vms := filter (λ y, y ≠ vm_id) (active_vms s);
        vm_map := vm_map s |}).
Proof.
  intros Hinv Hin Hstep Heval.
  assert (0 ≤ vm_id ≤ 50) as Hrange by (apply (pool_inv_range s vm_id Hinv); by right).
  unfold step, try_except, mbind, M_bind, bind.
  rewrite get_vm_env_leased by done. cbn. rewrite Hstep, Heval. cbn.
  rewrite bool_decide_eq_true_2 by lia.
  by rewrite release_vm_filter by (by apply pool_inv_NoDup_active || done).
Qed.

Lemma step_final_releases_witness :
  let env := {| env_render := None;
                env_reset := λ _, None;
                env_step := λ _, Some ("png"%string, 0, true);
                env_evaluate := Some 1 |} in
  let s := run_op Allocate (run_op Allocate VMStateManager._init_state) in
  step (Some env) "finish" 0 s =
    (StepOk "png" true 1,
     {| available_vms := available_vms s ++ [0];
        active_vms := filter (λ y, y ≠ 0) (active_vms s);
        vm_map := vm_map s |}).
Proof.
  intros env s. apply (step_final_releases s env "finish" 0 "png" 0 1).
  - unfold pool_inv. refine (bool_decide_unpack _ _). vm_compute. exact I.
  - refine (bool_decide_unpack _ _). vm_compute. exact I.
  - reflexivity.
  - reflexivity.
Defined.

(** X9.  A step request writes the store only when the ID is leased, the
    runtime reports the task finished and the evaluation succeeds: an
    unleased ID, a failing runtime call, a failing evaluation and a
    non-final step all leave the store as it was. *)
Theorem step_writes_only_on_finish docker action vm_id s :
  (step docker action vm_id s).2 ≠ s →
  vm_id ∈ active_vms s ∧
  ∃ env obs reward reward',
    docker = Some env ∧ env_step env action = Some (obs, reward, true) ∧
    env_evaluate env = Some reward'.
Proof.
  unfold step, try_except, mbind, M_bind, bind, _get_vm_env.
  destruct (decide (vm_id ∈ active_vms s)) as [Hin|Hout]; [|done].
  destruct docker as [env|]; [|done]. cbn.
  destruct (env_step env action) as [[[obs reward] [|]]|] eqn:Hstep; cbn; try done.
  destruct (env_evaluate env) as [reward'|] eqn:Heval; cbn; [|done].
  intros _. split; [done|]. by exists env, obs, reward, reward'.
Qed.

Lemma step_writes_only_on_finish_witness :
  let env := {| env_render := None;
                env_reset := λ _, None;
                env_step := λ _, Some ("png"%string, 0, true);
                env_evaluate := Some 1 |} in
  let s := run_op Allocate VMStateManager._init_state in
  0 ∈ active_vms s ∧
  ∃ env' obs reward reward',
    Some env = Some env' ∧ env_step env' "finish" = Some (obs, reward, true) ∧
    env_evaluate env' = Some reward'.
Proof.
  intros env s. apply (step_writes_only_on_finish (Some env) "finish" 0 s).
  vm_compute. discriminate.
Defined.

(** ** The lease dictionary map *)

(** X10.  Writing a lease dictionary and then removing it leaves no
    dictionary for that ID and touches nothing else: the two lists and every
    other dictionary are as before, the store is exactly the old one when
    the ID had no dictionary, and removing once more changes nothing. *)
Theorem update_then_remove_vm_map s vm_id data :
  ∃ s1 s2,
    VMStateManager.update_vm_map vm_id data s = Return tt s1 ∧
    vm_map s1 !! vm_id = Some data ∧
    VMStateManager.remove_vm_map vm_id s1 = Return tt s2 ∧
    available_vms s2 = available_vms s ∧ active_vms s2 = active_vms s ∧
    vm_map s2 = delete vm_id (vm_map s) ∧
    (vm_map s !! vm_id = None → s2 = s) ∧
    VMStateManager.remove_vm_map vm_id s2 = Return tt s2.
Proof.
  eexists _, _. split; [reflexivity|]. split; [apply lookup_insert_eq|].
  unfold VMStateManager.remove_vm_map. cbn [vm_map available_vms active_vms].
  rewrite lookup_insert_eq, delete_insert_eq.
  split; [reflexivity|]. split; [done|]. split; [done|]. split; [done|]. split.
  - intros Hnone. rewrite delete_id by done. by destruct s.
  - cbn [vm_map]. by rewrite lookup_delete_eq.
Qed.

(** ** The reaper on arbitrary stores *)

Lemma sweep_loop_conserves snapshot : ∀ loc,
  snapshot ⊆+ l_active loc →
  ∃ loc', sweep_loop snapshot loc = Some loc' ∧
    l_available loc' ++ l_active loc' ≡ₚ l_available loc ++ l_active loc ∧
    (∀ k, k ∈ l_active loc' → k ∈ l_active loc) ∧
    (∀ k, k ∈ l_available loc → k ∈ l_available loc') ∧
    (∀ k, k ∉ snapshot → l_map loc' !! k = l_map loc !! k) ∧
    (∀ k, is_Some (l_map loc' !! k) → is_Some (l_map loc !! k)).
Proof.
  induction snapshot as [|x rest IH]; intros loc Hsub.
  - exists loc. by repeat split.
  - pose proof Hsub as (k0 & Hk0 & Hrest)%submseteq_cons_l.
    assert (x ∈ l_active loc) as Hin by (rewrite Hk0; by left).
    destruct (sweep_step_returns loc x Hin) as (loc1 & Hstep & Hcase).
    cbn [sweep_loop]. rewrite Hstep. simpl.
    destruct Hcase as [(_ & Hperm & Hav & Hmap)|(_ & Hact & Hav & Hmap)].
    + destruct (IH loc1) as (loc' & Hloop & Hp & Hact' & Hav' & Hm' & Hdom).
      { rewrite Hperm in Hsub. by apply (submseteq_app_inv_l _ _ [x]). }
      exists loc'. split; [done|]. split; [|split; [|split; [|split]]].
      * rewrite Hp, Hav, Hperm, <-(assoc_L (++)). done.
      * intros k Hk. rewrite Hperm. right. by apply Hact'.
      * intros k Hk. apply Hav'. rewrite Hav. apply elem_of_app. by left.
      * intros k Hk. apply not_elem_of_cons in Hk as [Hne Hk].
        rewrite Hm', Hmap by done. by rewrite lookup_delete_ne.
      * intros k Hk. apply Hdom in Hk. rewrite Hmap, lookup_delete in Hk.
        case_decide; [by destruct Hk|done].
    + destruct (IH loc1) as (loc' & Hloop & Hp & Hact' & Hav' & Hm' & Hdom).
      { rewrite Hact, Hk0. by apply submseteq_cons. }
      exists loc'. split; [done|]. split; [|split; [|split; [|split]]].
      * by rewrite Hp, Hav, Hact.
      * intros k Hk. rewrite <-Hact. by apply Hact'.
      * intros k Hk. apply Hav'. by rewrite Hav.
      * intros k Hk. apply not_elem_of_cons in Hk as [Hne Hk].
        rewrite Hm', Hmap by done. by rewrite lookup_alter_ne.
      * intros k Hk. apply Hdom in Hk. rewrite Hmap, lookup_alter in Hk.
        case_decide; [subst; by apply fmap_is_Some in Hk|done].
Qed.

Lemma check_timeout_pass_conserves s :
  ∃ s', _check_timeout_pass s = Return tt s' ∧
    available_vms s' ++ active_vms s' ≡ₚ available_vms s ++ active_vms s ∧
    (∀ k, k ∈ active_vms s' → k ∈ active_vms s) ∧
    (∀ k, k ∈ available_vms s → k ∈ available_vms s') ∧
    (∀ k, k ∉ active_vms s → vm_map s' !! k = vm_map s !! k) ∧
    (∀ k, is_Some (vm_map s' !! k) → is_Some (vm_map s !! k)).
Proof.
  destruct (sweep_loop_conserves (active_vms s)
              (Locals (active_vms s) (available_vms s) (vm_map s)))
    as (loc' & Hloop & H); [done|].
  unfold _check_timeout_pass. rewrite Hloop. by eexists.
Qed.

Lemma check_timeout_conserves n : ∀ s,
  ∃ s', _check_timeout n s = Return tt s' ∧
    available_vms s' ++ active_vms s' ≡ₚ available_vms s ++ active_vms s ∧
    (∀ k, k ∈ active_vms s' → k ∈ active_vms s) ∧
    (∀ k, k ∈ available_vms s → k ∈ available_vms s') ∧
    (∀ k, k ∉ active_vms s → vm_map s' !! k = vm_map s !! k) ∧
    (∀ k, is_Some (vm_map s' !! k) → is_Some (vm_map s !! k)).
Proof.
  induction n as [|n IH]; intros s.
  - exists s. by repeat split.
  - destruct (check_timeout_pass_conserves s)
      as (s1 & E1 & Hp1 & Hact1 & Hav1 & Hm1 & Hdom1).
    destruct (IH s1) as (s' & E & Hp & Hact & Hav & Hm & Hdom).
    exists s'. split; [|split; [|split; [|split; [|split]]]].
    + cbn [_check_timeout]. unfold bind. by rewrite E1.
    + by rewrite Hp.
    + auto.
    + auto.
    + intros k Hk. rewrite Hm, Hm1; [done|done|]. intros Hk1. by apply Hk, Hact1.
    + auto.
Qed.

(** X11.  Any number of reaper passes returns on every store, duplicates or
    IDs out of range included: [active.remove] never raises.  The passes
    keep the IDs of the two lists together as they were, each as often as
    before; they only ever move IDs from leased to free, never create a
    lease dictionary and never touch the dictionary of an ID that was not
    leased. *)
Theorem reaper_passes_never_fail n s :
  ∃ s', _check_timeout n s = Return tt s' ∧
    available_vms s' ++ active_vms s' ≡ₚ available_vms s ++ active_vms s ∧
    (∀ k, k ∈ active_vms s' → k ∈ active_vms s) ∧
    (∀ k, k ∈ available_vms s → k ∈ available_vms s') ∧
    (∀ k, k ∉ active_vms s → vm_map s' !! k = vm_map s !! k) ∧
    (∀ k, is_Some (vm_map s' !! k) → is_Some (vm_map s !! k)).
Proof. apply check_timeout_conserves. Qed.

Lemma release_vm_conserves n s :
  ∃ s', VMStateManager.release_vm n s = Return tt s' ∧
    available_vms s' ++ active_vms s' ≡ₚ available_vms s ++ active_vms s.
Proof.
  destruct (decide (n ∈ active_vms s)) as [Hin|Hout].
  - destruct (release_vm_present _ _ Hin) as (active' & E & ->).
    eexists. split; [done|]. cbn.
    by rewrite (list_remove_Some_perm _ _ _ E), <-(assoc_L (++)).
  - rewrite release_vm_absent by done. by eexists.
Qed.

(** X12.  On every store, well formed or not, each operation (allocation,
    release of one ID or of "all", lease declaration, reaper pass) keeps the
    IDs of the free and the leased list together as they were, each as often
    as before: no operation loses or invents an ID. *)
Theorem run_op_conserves_ids o s :
  available_vms (run_op o s) ++ active_vms (run_op o s) ≡ₚ
  available_vms s ++ active_vms s.
Proof.
  destruct o as [|[n|name]|vm_id timeout|]; cbn [run_op].
  - destruct (last (available_vms s)) as [v|] eqn:Hlast.
    + destruct (get_available_vm_last s v Hlast) as (available' & Hrem & ->).
      cbn. rewrite (list_remove_Some_perm _ _ _ Hrem).
      by rewrite (assoc_L (++)), <-Permutation_cons_append.
    + apply last_None in Hlast. by rewrite get_available_vm_empty.
  - cbn [_release_vm]. case_bool_decide; [|done].
    by destruct (release_vm_conserves n s) as (s' & -> & Hp).
  - cbn [_release_vm]. case_bool_decide; [|done].
    pose proof (for_each_release_vm (active_vms s) (available_vms s) []
                  (vm_map s)) as E.
    rewrite app_nil_r in E. destruct s as [available active m]. cbn in *.
    rewrite E. cbn. by rewrite app_nil_r.
  - done.
  - by destruct (check_timeout_pass_conserves s) as (s' & -> & Hp & _).
Qed.

(** X13.  One reaper pass over a store whose leased list has no duplicates
    keeps the surviving leased IDs in their order and appends the expired
    ones to the free list in the order they were leased, so the expired ID
    leased last is the next one to be allocated. *)
Theorem reaper_pass_order s :
  NoDup (active_vms s) →
  ∃ s', _check_timeout_pass s = Return tt s' ∧
    active_vms s' = filter (λ x, ¬ expires (vm_map s) x) (active_vms s) ∧
    available_vms s' =
      available_vms s ++ filter (expires (vm_map s)) (active_vms s) ∧
    ∀ vm_id, last (filter (expires (vm_map s)) (active_vms s)) = Some vm_id →
      ∃ s'', _get_available_vm s' = Return vm_id s''.
Proof.
  intros Hnd.
  destruct (check_timeout_pass_closed s Hnd) as (s' & E & Hact & Hav & _).
  exists s'. split; [done|]. split; [done|]. split; [done|].
  intros vm_id Hlast.
  destruct (get_available_vm_last s' vm_id) as (available' & _ & ->); [|by eexists].
  rewrite Hav, last_app, Hlast. done.
Qed.

Lemma reaper_pass_order_witness :
  let s := run_op (SetLease 1 30) (run_op (SetLease 0 300)
             (run_op Allocate (run_op Allocate (run_op Allocate
                VMStateManager._init_state)))) in
  ∃ s', _check_timeout_pass s = Return tt s' ∧
    active_vms s' = [0] ∧
    available_vms s' = available_vms s ++ [1; 2] ∧
    ∃ s'', _get_available_vm s' = Return 2 s''.
Proof.
  intros s.
  destruct (reaper_pass_order s) as (s' & E & Hact & Hav & Hnext).
  - refine (bool_decide_unpack _ _). vm_compute. exact I.
  - exists s'. split; [exact E|]. split; [rewrite Hact; vm_compute; reflexivity|].
    split; [rewrite Hav; vm_compute; reflexivity|].
    apply Hnext. vm_compute. reflexivity.
Defined.

(** X14.  The countdown of an idle lease.  On a store whose leased list has
    no duplicates, take a leased ID whose dictionary has no heartbeat flag
    set and remaining lifetime L.  After n reaper passes in a row the ID is
    still leased with remaining lifetime L - 60 n as long as 60 n < L, and
    from the first pass with L ≤ 60 n on it is free, without a dictionary. *)
Theorem lease_countdown n : ∀ s vm_id entry,
  NoDup (active_vms s) → vm_id ∈ active_vms s →
  vm_map s !! vm_id = Some entry → truthy (get_visited entry) = false →
  ∃ s', _check_timeout n s = Return tt s' ∧
    if decide (60 * Z.of_nat n < as_int (get_lifetime entry)) then
      vm_id ∈ active_vms s' ∧
      ∃ entry', vm_map s' !! vm_id = Some entry' ∧
        as_int (get_lifetime entry') =
          as_int (get_lifetime entry) - 60 * Z.of_nat n ∧
        truthy (get_visited entry') = false
    else
      (0 < n)%nat →
      (vm_id ∉ active_vms s') ∧ vm_id ∈ available_vms s' ∧
      vm_map s' !! vm_id = None.
Proof.
  induction n as [|n IH]; intros s vm_id entry Hnd Hin Hentry Hvisited.
  - exists s. split; [done|]. case_decide.
    + split; [done|]. exists entry. split; [done|]. split; [lia|done].
    + lia.
  - destruct (check_timeout_pass_leased s vm_id Hnd Hin)
      as (s1 & E1 & Hnd1 & Hexp & Hkept).
    assert (expires (vm_map s) vm_id ↔ as_int (get_lifetime entry) ≤ 60) as Hiff.
    { unfold expires. rewrite Hentry. simpl.
      rewrite lifetime_sweep_entry, Hvisited. lia. }
    destruct (decide (as_int (get_lifetime entry) ≤ 60)) as [Hle|Hgt].
    + destruct Hexp as (Hgone & Hfree & Hnone); [by apply Hiff|].
      destruct (check_timeout_conserves n s1) as (s' & E & _ & Hact & Hav & Hm & _).
      exists s'. split; [cbn [_check_timeout]; unfold bind; by rewrite E1|].
      rewrite decide_False by lia. intros _.
      split; [|split]; [by intros ?%Hact|by apply Hav|by rewrite Hm].
    + destruct Hkept as (Hin1 & _ & Hmap1); [by rewrite Hiff|].
      rewrite Hentry in Hmap1. simpl in Hmap1.
      destruct (IH s1 vm_id (sweep_entry entry) Hnd1 Hin1 Hmap1
                  (visited_sweep_entry entry)) as (s' & E & Hres).
      exists s'. split; [cbn [_check_timeout]; unfold bind; by rewrite E1|].
      rewrite lifetime_sweep_entry, Hvisited in Hres.
      replace (Z.max 0 (as_int (get_lifetime entry) - 60))
        with (as_int (get_lifetime entry) - 60) in Hres by lia.
      destruct (decide (60 * Z.of_nat n < as_int (get_lifetime entry) - 60))
        as [Hlt|Hge].
      * rewrite decide_True by lia.
        destruct Hres as (? & entry' & ? & Hlife & ?).
        split; [done|]. exists entry'. split; [done|]. split; [lia|done].
      * rewrite decide_False by lia. intros _. apply Hres. lia.
Qed.

Lemma lease_countdown_witness :
  let s := run_op (SetLease 0 150) (run_op Allocate VMStateManager._init_state) in
  (∃ s', _check_timeout 2 s = Return tt s' ∧ 0 ∈ active_vms s' ∧
     ∃ entry', vm_map s' !! 0 = Some entry' ∧ as_int (get_lifetime entry') = 30) ∧
  (∃ s', _check_timeout 3 s = Return tt s' ∧
     (0 ∉ active_vms s') ∧ 0 ∈ available_vms s' ∧ vm_map s' !! 0 = None).
Proof.
  intros s.
  assert (NoDup (active_vms s)) as Hnd
    by (refine (bool_decide_unpack _ _); vm_compute; exact I).
  assert (0 ∈ active_vms s) as Hin
    by (refine (bool_decide_unpack _ _); vm_compute; exact I).
  pose (entry := <["timeout"%string := JInt 150]>
                   (<["lifetime"%string := JInt 150]> (∅ : gmap string jval))).
  assert (vm_map s !! 0 = Some entry) as Hentry by (vm_compute; reflexivity).
  assert (truthy (get_visited entry) = false) as Hvisited by reflexivity.
  split.
  - destruct (lease_countdown 2 s 0 entry Hnd Hin Hentry Hvisited) as (s' & E & H).
    exists s'. split; [exact E|].
    destruct (decide (60 * Z.of_nat 2 < as_int (get_lifetime entry))) as [_|Hn];
      [|exfalso; apply Hn; vm_compute; reflexivity].
    destruct H as (Hin' & entry' & Hm & Hlife & _).
    split; [exact Hin'|]. exists entry'. split; [exact Hm|]. rewrite Hlife. reflexivity.
  - destruct (lease_countdown 3 s 0 entry Hnd Hin Hentry Hvisited) as (s' & E & H).
    exists s'. split; [exact E|].
    destruct (decide (60 * Z.of_nat 3 < as_int (get_lifetime entry))) as [Hy|_];
      [exfalso; vm_compute in Hy; discriminate Hy|].
    apply H. lia.
Defined.

(** X15.  A dictionary outlives a voluntary release.  On a pool store, take
    a leased ID whose dictionary has no heartbeat flag set and more than 60
    of lifetime left.  After releasing the ID the next allocation returns it
    again with the old dictionary still stored, and a reaper pass then keeps
    the ID leased (an ID leased without any dictionary would be freed by
    that pass). *)
Theorem stale_record_governs_next_lease s n entry :
  pool_inv s → n ∈ active_vms s → vm_map s !! n = Some entry →
  truthy (get_visited entry) = false → 60 < as_int (get_lifetime entry) →
  ∃ s1 s2 s3,
    _release_vm (IdInt n) s = Return tt s1 ∧
    _get_available_vm s1 = Return n s2 ∧
    vm_map s2 !! n = Some entry ∧
    _check_timeout_pass s2 = Return tt s3 ∧
    n ∈ active_vms s3 ∧ vm_map s3 !! n = Some (sweep_entry entry).
Proof.
  intros Hinv Hin Hentry Hvisited Hlife.
  assert (0 ≤ n ≤ 50) as Hrange by (apply (pool_inv_range s n Hinv); by right).
  pose proof (pool_inv_NoDup_active s Hinv) as Hnd.
  set (s2 := {| available_vms := available_vms s;
                active_vms := filter (λ y, y ≠ n) (active_vms s) ++ [n];
                vm_map := vm_map s |}).
  assert (NoDup (active_vms s2)) as Hnd2.
  { cbn. apply NoDup_app. split; [by apply NoDup_filter|]. split.
    - intros x [Hx _]%list_elem_of_filter ->%list_elem_of_singleton. done.
    - apply NoDup_singleton. }
  assert (n ∈ active_vms s2) as Hin2 by (cbn; apply elem_of_app; right; by left).
  destruct (check_timeout_pass_leased s2 n Hnd2 Hin2) as (s3 & E3 & _ & _ & Hkept).
  destruct Hkept as (Hin3 & _ & Hmap3).
  { unfold expires. cbn [s2 vm_map]. rewrite Hentry. simpl.
    rewrite lifetime_sweep_entry, Hvisited. lia. }
  eexists _, s2, s3. split; [|split; [|split; [|split; [|split]]]].
  - cbn [_release_vm]. rewrite bool_decide_eq_true_2 by lia.
    by apply release_vm_filter.
  - rewrite (get_available_vm_snoc _ (available_vms s) n); [done|done|].
    intros Hfree. by apply (pool_inv_disjoint s n Hinv).
  - done.
  - done.
  - done.
  - cbn [s2 vm_map] in Hmap3. by rewrite Hentry in Hmap3.
Qed.

Lemma stale_record_governs_next_lease_witness :
  let s := run_op (SetLease 0 150) (run_op Allocate VMStateManager._init_state) in
  ∃ s1 s2 s3,
    _release_vm (IdInt 0) s = Return tt s1 ∧
    _get_available_vm s1 = Return 0 s2 ∧
    vm_map s2 !! 0 = Some (<["timeout"%string := JInt 150]>
                             (<["lifetime"%string := JInt 150]> ∅)) ∧
    _check_timeout_pass s2 = Return tt s3 ∧
    0 ∈ active_vms s3 ∧
    vm_map s3 !! 0 = Some (sweep_entry (<["timeout"%string := JInt 150]>
                                          (<["lifetime"%string := JInt 150]> ∅))).
Proof.
  intros s. apply (stale_record_governs_next_lease s 0).
  - unfold pool_inv. refine (bool_decide_unpack _ _). vm_compute. exact I.
  - refine (bool_decide_unpack _ _). vm_compute. exact I.
  - vm_compute. reflexivity.
  - reflexivity.
  - vm_compute. reflexivity.
Defined.

(** ** Start-up *)

(** X16.  [_init_state] writes only the files that are missing.  Afterwards
    all three files can be read; a directory that already held the three
    files is left exactly as it was, so a restart keeps the leases; running
    it a second time changes nothing; an empty directory yields the full
    free list 50..0, no leased ID and no dictionary.  When only
    [available.json] is missing it is rewritten as the full range, so every
    ID of 0..50 that [active.json] lists is then both free and leased. *)
Theorem init_state_writes_missing_files :
  (∀ c, is_Some (read_store (_init_state_on c))) ∧
  (∀ c s, read_store c = Some s → _init_state_on c = c) ∧
  (∀ c, _init_state_on (_init_state_on c) = _init_state_on c) ∧
  read_store (_init_state_on {| available_json := None;
                                active_json := None;
                                vm_map_json := None |}) =
    Some VMStateManager._init_state ∧
  (∀ active m vm_id,
     vm_id ∈ active → 0 ≤ vm_id ≤ 50 →
     ∃ s, read_store (_init_state_on {| available_json := None;
                                        active_json := Some active;
                                        vm_map_json := Some m |}) = Some s ∧
       vm_id ∈ available_vms s ∧ vm_id ∈ active_vms s).
Proof.
  split; [|split; [|split; [|split]]].
  - intros [[a|] [b|] [m|]]; by eexists.
  - intros [[a|] [b|] [m|]] s; by cbn.
  - by intros [[a|] [b|] [m|]].
  - done.
  - intros active m vm_id Hin Hrange. eexists. split; [reflexivity|].
    split; [by apply elem_of_range_50_down|done].
Qed.

(** ** Allocation order on a fresh pool *)

Lemma fresh_pool_after k :
  (k ≤ 51)%nat →
  Nat.iter k (run_op Allocate) VMStateManager._init_state =
    {| available_vms := reverse (seqZ (Z.of_nat k) (51 - Z.of_nat k));
       active_vms := seqZ 0 (Z.of_nat k);
       vm_map := ∅ |}.
Proof.
  induction k as [|k IH]; intros Hk; [done|].
  rewrite Nat.iter_succ, IH by lia. cbn [run_op].
  rewrite (get_available_vm_snoc _
             (reverse (seqZ (Z.of_nat (S k)) (51 - Z.of_nat (S k)))) (Z.of_nat k)).
  - cbn [store_of available_vms active_vms vm_map]. f_equal.
    rewrite seqZ_S. by rewrite Z.add_0_l.
  - cbn [available_vms]. rewrite (seqZ_cons (Z.of_nat k)) by lia.
    rewrite reverse_cons. do 3 f_equal; lia.
  - rewrite elem_of_reverse, elem_of_seqZ. lia.
Qed.

(** X17.  A fresh pool hands out its IDs in ascending order: after k
    allocations (k ≤ 50) the leased list is 0, 1, ..., k-1, the free list is
    50 down to k, and the next allocation returns k. *)
Theorem fresh_pool_allocates_ascending k :
  (k ≤ 50)%nat →
  let s := Nat.iter k (run_op Allocate) VMStateManager._init_state in
  active_vms s = seqZ 0 (Z.of_nat k) ∧
  available_vms s = reverse (seqZ (Z.of_nat k) (51 - Z.of_nat k)) ∧
  ∃ s', _get_available_vm s = Return (Z.of_nat k) s'.
Proof.
  intros Hk s. subst s. rewrite fresh_pool_after by lia.
  split; [done|]. split; [done|].
  eexists. apply (get_available_vm_snoc _
             (reverse (seqZ (Z.of_nat (S k)) (51 - Z.of_nat (S k)))) (Z.of_nat k)).
  - cbn [available_vms]. rewrite (seqZ_cons (Z.of_nat k)) by lia.
    rewrite reverse_cons. do 3 f_equal; lia.
  - rewrite elem_of_reverse, elem_of_seqZ. lia.
Qed.

Lemma fresh_pool_allocates_ascending_witness :
  let s := Nat.iter 7 (run_op Allocate) VMStateManager._init_state in
  active_vms s = seqZ 0 7 ∧
  available_vms s = reverse (seqZ 7 44) ∧
  ∃ s', _get_available_vm s = Return 7 s'.
Proof.
  apply (fresh_pool_allocates_ascending 7). lia.
Defined.

(** ** The handlers and the pool invariant *)

(** X18.  The four request handlers keep the pool invariant, whatever the
    runtime answers and whether they answer 200 or 400: after a reset, a
    step, a screenshot or a shutdown request on a pool store, the free and
    the leased list together are still the IDs 0..50, each exactly once. *)
Theorem handlers_keep_pool_inv s :
  pool_inv s →
  (∀ docker task_config timeout, pool_inv (reset docker task_config timeout s).2) ∧
  (∀ docker action vm_id, pool_inv (step docker action vm_id s).2) ∧
  (∀ docker vm_id, pool_inv (screenshot docker vm_id s).2) ∧
  (∀ vm_id, pool_inv (shutdown vm_id s).2).
Proof.
  intros Hinv. split; [|split; [|split]].
  - intros docker task_config timeout.
    pose proof (get_available_vm_inv s Hinv) as Hinv1.
    unfold reset, try_except, mbind, M_bind, bind.
    destruct (_get_available_vm s) as [vm_id s1|e s1]; [|done].
    cbn [store_of] in Hinv1. unfold _get_vm_env.
    destruct (decide (vm_id ∈ active_vms s1)); [|done].
    destruct docker as [env|]; [|done]. cbn.
    by destruct (env_reset env task_config).
  - intros docker action vm_id.
    unfold step, try_except, mbind, M_bind, bind, _get_vm_env.
    destruct (decide (vm_id ∈ active_vms s)); [|done].
    destruct docker as [env|]; [|done]. cbn.
    destruct (env_step env action) as [[[obs reward] [|]]|]; cbn; try done.
    destruct (env_evaluate env); cbn; [|done].
    destruct (release_vm_arg_returns (IdInt vm_id) s) as (s' & E & _ & H).
    cbn [_release_vm] in E. rewrite E. by apply H.
  - intros docker vm_id. by rewrite screenshot_keeps_store.
  - intros vm_id. unfold shutdown, try_except, mbind, M_bind, bind.
    destruct (release_vm_arg_returns vm_id s) as (s' & -> & _ & H). by apply H.
Qed.

Lemma handlers_keep_pool_inv_witness :
  let env := {| env_render := None;
                env_reset := λ _, Some ("png"%string, "task"%string);
                env_step := λ _, Some ("png"%string, 0, true);
                env_evaluate := Some 1 |} in
  let s := (reset (Some env) "config" 90 VMStateManager._init_state).2 in
  pool_inv s ∧ pool_inv (step (Some env) "finish" 0 s).2.
Proof.
  intros env s.
  assert (pool_inv s) as Hinv
    by (unfold pool_inv; refine (bool_decide_unpack _ _); vm_compute; exact I).
  split; [exact Hinv|].
  exact (proj1 (proj2 (handlers_keep_pool_inv s Hinv)) (Some env) "finish" 0).
Defined.

(** X19.  Whenever a reset request on a pool store answers 200, the ID in
    the answer lies in 0..50, was free before, is leased afterwards and
    carries a lease dictionary whose timeout and lifetime are the declared
    timeout; every other dictionary and every other ID's status is as
    before. *)
Theorem reset_ok_inversion s docker task_config timeout shot problem vm_id s' :
  pool_inv s →
  reset docker task_config timeout s = (ResetOk shot problem vm_id, s') →
  0 ≤ vm_id ≤ 50 ∧ last (available_vms s) = Some vm_id ∧
  (vm_id ∉ active_vms s) ∧
  active_vms s' = active_vms s ++ [vm_id] ∧
  available_vms s = available_vms s' ++ [vm_id] ∧
  vm_map s' = <[vm_id := <["timeout"%string := JInt timeout]>
                           (<["lifetime"%string := JInt timeout]> ∅)]> (vm_map s).
Proof.
  intros Hinv. unfold reset, try_except, mbind, M_bind, bind.
  destruct (last (available_vms s)) as [v|] eqn:Hlast.
  - destruct (pool_inv_last s v Hinv Hlast) as (rest & Hrest & Hfresh & Hout & Hrange).
    rewrite (get_available_vm_snoc s rest v Hrest Hfresh).
    rewrite get_vm_env_leased by (cbn; apply elem_of_app; right; by left).
    destruct docker as [env|]; cbn; [|done].
    destruct (env_reset env task_config) as [[shot' problem']|]; cbn; [|done].
    intros [= -> -> <- <-]. by cbn.
  - apply last_None in Hlast. by rewrite get_available_vm_empty.
Qed.

Lemma reset_ok_inversion_witness :
  let env := {| env_render := None;
                env_reset := λ _, Some ("png"%string, "task"%string);
                env_step := λ _, None;
                env_evaluate := None |} in
  let s := run_op Allocate VMStateManager._init_state in
  let r := reset (Some env) "config" 90 s in
  r.1 = ResetOk "png" "task" 1 ∧
  0 ≤ 1 ≤ 50 ∧ last (available_vms s) = Some 1 ∧
  (1 ∉ active_vms s) ∧
  active_vms r.2 = active_vms s ++ [1] ∧
  available_vms s = available_vms r.2 ++ [1] ∧
  vm_map r.2 = <[1 := <["timeout"%string := JInt 90]>
                        (<["lifetime"%string := JInt 90]> ∅)]> (vm_map s).
Proof.
  intros env s r. split; [vm_compute; reflexivity|].
  apply (reset_ok_inversion s (Some env) "config" 90 "png" "task" 1 r.2).
  - unfold pool_inv. refine (bool_decide_unpack _ _). vm_compute. exact I.
  - vm_compute. reflexivity.
Defined.
